(** * Majority illusion on scale-free networks: the opinion-diffusion engine

    A shallow embedding of [ba.py] and [experiment.py]: influencer
    selection, minority assignment, static illusion detection and the two
    diffusion loops, with the properties of the engine proved about them.

    Conventions of the embedding.
    - A networkx graph is its node list (in iteration order) and its
      adjacency function.
    - An opinion dictionary is a finite map from nodes to labels; reading a
      missing key raises [KeyError].
    - A Python [set] is a finite set; the order in which it is iterated is not
      fixed by the language, so it is a parameter ([set_iter]).
    - [random.sample] is a parameter ([sample]) constrained only by what the
      library promises.
    - A Python float is read as the rational it denotes. The product
      [frac * N] is rounded to the nearest binary64 number, ties to even
      ([b64_round]); the exponent range of binary64 is not modelled, the
      products of this program being far from both of its ends. The other
      float computations are quotients and products of small integers and
      the literal 0.5, compared at once. *)

From Stdlib Require Import ZArith QArith Qround Qcanon Lia.
From stdpp Require Import base option list sorting gmap fin_maps fin_sets.

Local Open Scope Z_scope.

(** ** Shared data model *)

Definition node := nat.

(** The two opinion strings ['Red'] (Minority) and ['Blue'] (Majority). *)
Inductive Label := Red | Blue.

#[global] Instance Label_eq_dec : EqDecision Label.
Proof. solve_decision. Defined.

(** The Python exceptions the engine can raise. *)
Inductive exn := ZeroDivisionError | KeyError | ValueError | IndexError.

#[global] Instance exn_eq_dec : EqDecision exn.
Proof. solve_decision. Defined.

(** Computations that return a value or raise. *)
Definition result (A : Type) : Type := exn + A.

Definition ret {A} (a : A) : result A := inr a.
Definition raise {A} (e : exn) : result A := inl e.
Definition bind {A B} (m : result A) (k : A → result B) : result B :=
  match m with
  | inl e => inl e
  | inr a => k a
  end.

Notation "'let*' x := m 'in' k" := (bind m (fun x => k))
  (at level 10, x name, m at level 100, k at level 200,
   format "'[v' 'let*'  x  :=  m  'in'  '/' k ']'").

(** [nx.Graph]: [for v in G] walks [nodes]; [G.neighbors(v)] walks
    [neighbors v]. *)
Record Graph := {
  nodes : list node;
  neighbors : node → list node
}.

(** [G.number_of_nodes()] *)
Definition number_of_nodes (G : Graph) : Z := Z.of_nat (length (nodes G)).

(** [G.degree(v)], [G.degree[v]]: the number of adjacency entries, a
    self-loop counted twice. *)
Definition degree (G : Graph) (v : node) : Z :=
  Z.of_nat (length (neighbors G v))
  + (if decide (v ∈ neighbors G v) then 1 else 0).

(** [opinions[u]] *)
Definition getitem (opinions : gmap node Label) (u : node) : result Label :=
  match opinions !! u with
  | Some l => ret l
  | None => raise KeyError
  end.

(** [sum(x == 'Red' for x in labels)] *)
Definition count_red (labels : list Label) : Z :=
  Z.of_nat (length (filter (λ l, l = Red) labels)).

(** [opinions.values()] *)
Definition values (opinions : gmap node Label) : list Label :=
  (map_to_list opinions).*2.

(** [[opinions[u] for u in nbrs]], raising at the first missing key. *)
Fixpoint labels_of (opinions : gmap node Label) (nbrs : list node)
  : result (list Label) :=
  match nbrs with
  | [] => ret []
  | u :: rest =>
      let* l := getitem opinions u in
      let* ls := labels_of opinions rest in
      ret (l :: ls)
  end.

(** [sum(opinions[u] == 'Red' for u in nbrs)] *)
Definition red_among (opinions : gmap node Label) (nbrs : list node)
  : result Z :=
  let* ls := labels_of opinions nbrs in ret (count_red ls).

(** [seq[-1]] *)
Definition getlast (series : list Z) : result Z :=
  match last series with
  | Some x => ret x
  | None => raise IndexError
  end.

(** [max(seq)] *)
Definition py_max (series : list Z) : result Z :=
  match series with
  | [] => raise ValueError
  | x :: rest => ret (foldl Z.max x rest)
  end.

(** [l[:stop]] with Python's reading of a negative [stop]. *)
Definition slice_to {A} (l : list A) (stop : Z) : list A :=
  if decide (0 ≤ stop) then take (Z.to_nat stop) l
  else take (length l - Z.to_nat (- stop)) l.

(** [sorted(l, key=key, reverse=True)]: the stable sort by decreasing key,
    written as an insertion sort; elements with equal keys keep the order
    they have in [l]. *)
Fixpoint insert_desc {A} (key : A → Z) (x : A) (l : list A) : list A :=
  match l with
  | [] => [x]
  | y :: l' =>
      if decide (key x < key y) then y :: insert_desc key x l'
      else x :: y :: l'
  end.

Definition sorted_desc {A} (key : A → Z) (l : list A) : list A :=
  foldr (insert_desc key) [] l.

(** Float comparison [x < y]. *)
#[global] Instance Qlt_decision (x y : Q) : Decision (x < y)%Q :=
  match Qlt_le_dec x y with
  | left H => left H
  | right H => right (Qle_not_lt _ _ H)
  end.

(** [int(x)] on a float: truncation toward zero. *)
Definition int (x : Q) : Z := Z.quot (Qnum x) (Z.pos (Qden x)).

(** The [e] with [2^e ≤ p/q < 2^(e+1)], for positive [p] and [q]. *)
Definition floor_log2 (p q : Z) : Z :=
  let l := Z.log2 p - Z.log2 q in
  if (if 0 <=? l then q * 2 ^ l <=? p else q <=? p * 2 ^ (- l)) then l
  else l - 1.

(** The integer nearest to [n/d], a half going to the even one, for
    [0 ≤ n] and [0 < d]. *)
Definition round_half_even (n d : Z) : Z :=
  let k := n / d in
  let r := n mod d in
  if 2 * r <? d then k
  else if d <? 2 * r then k + 1
  else if Z.even k then k else k + 1.

(** The binary64 number nearest to [x], ties to even: a significand of 53
    bits times a power of two. *)
Definition b64_round (x : Q) : Q :=
  let p := Z.abs (Qnum x) in
  let q := Z.pos (Qden x) in
  if p =? 0 then 0%Q
  else
    let e := floor_log2 p q - 52 in
    let m :=
      if 0 <=? e then round_half_even p (q * 2 ^ e)
      else round_half_even (p * 2 ^ (- e)) q in
    let ulp :=
      if 0 <=? e then inject_Z (2 ^ e) else (1 # Z.to_pos (2 ^ (- e)))%Q in
    Qred (inject_Z (Z.sgn (Qnum x) * m) * ulp).

(** The float an integer operand is converted to. *)
Definition float_of_int (n : Z) : Q := b64_round (inject_Z n).

(** [x * y] on floats. *)
Definition float_mul (x y : Q) : Q := b64_round (x * y).

(** [sum(dict(G.degree()).values())] *)
Definition degree_sum (G : Graph) : Z :=
  foldr Z.add 0 (degree G <$> nodes G).

(** [{v: 'Red' if v in minority_set else 'Blue' for v in G}] *)
Definition opinions_of (G : Graph) (minority_set : gset node)
  : gmap node Label :=
  list_to_map
    ((λ v, (v, if decide (v ∈ minority_set) then Red else Blue)) <$> nodes G).

(** The two fill colors of the plots, ['red'] and ['skyblue']. *)
Inductive Color := red | skyblue.

(** ['red' if label == 'Red' else 'skyblue'] *)
Definition color_of (l : Label) : Color :=
  match l with Red => red | Blue => skyblue end.

(** [colors[v]] on a list, for an index that is not negative. *)
Definition getindex {A} (l : list A) (i : nat) : result A :=
  match l !! i with
  | Some x => ret x
  | None => raise IndexError
  end.

(** [[colors[v] for v in vs]], raising at the first index out of range. *)
Fixpoint colors_at (colors : list Color) (vs : list node)
  : result (list Color) :=
  match vs with
  | [] => ret []
  | v :: rest =>
      let* c := getindex colors v in
      let* cs := colors_at colors rest in
      ret (c :: cs)
  end.

(** ** [ba.py] *)
Module BA.

Definition N : Z := 1000.
Definition phi : Q := (1 # 2)%Q.
Definition max_rounds : nat := 50.

Definition identify_influencers_by_threshold (G : Graph)
  : result (gset node) :=
  if decide (number_of_nodes G = 0) then raise ZeroDivisionError
  else
    let avg_deg := (inject_Z (degree_sum G) / inject_Z (number_of_nodes G))%Q in
    let threshold := (2 * avg_deg)%Q in
    ret (list_to_set
           (filter (λ n, (threshold < inject_Z (degree G n))%Q) (nodes G))).

(** The [for v in G.nodes()] loop of [static_majority_illusion]. *)
Fixpoint illusion_loop (G : Graph) (opinions : gmap node Label)
    (global_maj : Label) (vs : list node) (illusion_nodes : list node)
  : result (list node) :=
  match vs with
  | [] => ret illusion_nodes
  | v :: rest =>
      let nbrs := neighbors G v in
      match nbrs with
      | [] => illusion_loop G opinions global_maj rest illusion_nodes
      | _ :: _ =>
          let* local_red := red_among opinions nbrs in
          let local_blue := Z.of_nat (length nbrs) - local_red in
          if decide (local_red = local_blue) then
            illusion_loop G opinions global_maj rest illusion_nodes
          else
            let local_maj :=
              if decide (local_red > local_blue) then Red else Blue in
            if decide (local_maj ≠ global_maj) then
              illusion_loop G opinions global_maj rest (illusion_nodes ++ [v])
            else
              illusion_loop G opinions global_maj rest illusion_nodes
      end
  end.

Definition static_majority_illusion (G : Graph) (opinions : gmap node Label)
  : result (Label * list node) :=
  let total_red := count_red (values opinions) in
  let total_blue := Z.of_nat (size opinions) - total_red in
  let global_maj := if decide (total_red > total_blue) then Red else Blue in
  let* illusion_nodes := illusion_loop G opinions global_maj (nodes G) [] in
  ret (global_maj, illusion_nodes).

(** The update loop of one round: [new_op] starts as a copy of
    [opinions]; only [Blue] nodes are examined. *)
Fixpoint update_loop (phi : Q) (G : Graph) (opinions : gmap node Label)
    (vs : list node) (new_op : gmap node Label) : result (gmap node Label) :=
  match vs with
  | [] => ret new_op
  | v :: rest =>
      let* l := getitem opinions v in
      if decide (l = Blue) then
        let* red_nbrs := red_among opinions (neighbors G v) in
        if decide (phi * inject_Z (degree G v) < inject_Z red_nbrs)%Q then
          update_loop phi G opinions rest (<[v := Red]> new_op)
        else update_loop phi G opinions rest new_op
      else update_loop phi G opinions rest new_op
  end.

(** One round's update, [new_op] as it is when the inner loop ends. *)
Definition update (phi : Q) (G : Graph) (opinions : gmap node Label)
  : result (gmap node Label) :=
  update_loop phi G opinions (nodes G) opinions.

(** [for _ in range(rounds)]: the rounds still to run, the current
    labeling and the series so far. *)
Fixpoint simulation_loop (phi : Q) (G : Graph) (rounds : nat)
    (opinions : gmap node Label) (illusion_series : list Z)
  : result (list Z * gmap node Label) :=
  match rounds with
  | O => ret (illusion_series, opinions)
  | S rounds' =>
      let* gi := static_majority_illusion G opinions in
      let illusion_series := illusion_series ++ [Z.of_nat (length gi.2)] in
      let* new_op := update phi G opinions in
      if decide (new_op = opinions) then ret (illusion_series, opinions)
      else simulation_loop phi G rounds' new_op illusion_series
  end.

(** [dynamic_simulation] with the module constants [phi] and
    [max_rounds] as arguments. *)
Definition dynamic_simulation_with (phi : Q) (rounds : nat) (G : Graph)
    (opinions_init : gmap node Label) : result (list Z * gmap node Label) :=
  simulation_loop phi G rounds opinions_init [].

Definition dynamic_simulation (G : Graph) (opinions_init : gmap node Label)
  : result (list Z * gmap node Label) :=
  dynamic_simulation_with phi max_rounds G opinions_init.

(** The labeling after [k] rounds of updates. *)
Fixpoint rounds_after (phi : Q) (G : Graph) (k : nat)
    (opinions : gmap node Label) : result (gmap node Label) :=
  match k with
  | O => ret opinions
  | S k' =>
      let* new_op := update phi G opinions in
      rounds_after phi G k' new_op
  end.

(** What [plot_static_illusion] hands to the drawing calls: for the shape
    ['o'] and then for the shape ['s'], the node list and its colors, and
    the number of [Red] entries shown in the title. [is_square v] stands for
    [shapes[v] == 's']. *)
Definition plot_static_illusion (G : Graph) (opinions : gmap node Label)
    (illusion_nodes : list node)
  : result (list (list node * list Color) * Z) :=
  let* labels := labels_of opinions (nodes G) in
  let colors := color_of <$> labels in
  let is_square v := bool_decide (v ∈ illusion_nodes) in
  let circles := filter (λ v, is_square v = false) (nodes G) in
  let* circle_colors := colors_at colors circles in
  let squares := filter (λ v, is_square v = true) (nodes G) in
  let* square_colors := colors_at colors squares in
  let n_influencers := count_red (values opinions) in
  ret ([(circles, circle_colors); (squares, square_colors)], n_influencers).

(** What [plot_network_evolution] hands to the two drawing calls: the
    colors of the nodes at the start and at the end. *)
Definition plot_network_evolution (G : Graph)
    (opinions_start opinions_end : gmap node Label)
  : result (list Color * list Color) :=
  let* labels_start := labels_of opinions_start (nodes G) in
  let colors_start := color_of <$> labels_start in
  let* labels_end := labels_of opinions_end (nodes G) in
  let colors_end := color_of <$> labels_end in
  ret (colors_start, colors_end).

(** The main block on a graph [G]: the influencers are the [Red] nodes; the
    values printed are the global majority, the static illusion count and
    the last entry of the series. Of the plotting calls the lists they are
    handed are computed, for the errors this can raise;
    [plot_illusion_development] only reads the series. *)
Definition main (G : Graph) : result (Label * Z * Z) :=
  let* influencers := identify_influencers_by_threshold G in
  let opinions_init := opinions_of G influencers in
  let* gi := static_majority_illusion G opinions_init in
  let* static_draws := plot_static_illusion G opinions_init gi.2 in
  let* sim := dynamic_simulation G opinions_init in
  let* fin := getlast sim.1 in
  let* evolution_draws := plot_network_evolution G opinions_init sim.2 in
  ret (gi.1, Z.of_nat (length gi.2), fin).

End BA.

(** ** [experiment.py] *)
Module Experiment.

Definition N : Z := 1000.
Definition phi : Q := (1 # 2)%Q.
Definition max_rounds : nat := 50.
(** The literals 0.10, 0.30 and 0.40: the floats nearest to the decimals. *)
Definition minority_fracs : list Q :=
  [b64_round (10 # 100); b64_round (30 # 100); b64_round (40 # 100)].

Definition identify_influencers_by_threshold (G : Graph)
  : result (gset node) :=
  if decide (number_of_nodes G = 0) then raise ZeroDivisionError
  else
    let avg_deg := (inject_Z (degree_sum G) / inject_Z (number_of_nodes G))%Q in
    let threshold := (2 * avg_deg)%Q in
    ret (list_to_set
           (filter (λ v, (threshold < inject_Z (degree G v))%Q) (nodes G))).

(** The [for v in G] loop of [static_majority_illusion], run over the
    remaining nodes with the list built so far. *)
Fixpoint illusion_loop (G : Graph) (opinions : gmap node Label)
    (global_maj : Label) (vs : list node) (illusion : list node)
  : result (list node) :=
  match vs with
  | [] => ret illusion
  | v :: rest =>
      let nbrs := neighbors G v in
      match nbrs with
      | [] => illusion_loop G opinions global_maj rest illusion
      | _ :: _ =>
          let* r := red_among opinions nbrs in
          let b := Z.of_nat (length nbrs) - r in
          if decide (r = b) then
            illusion_loop G opinions global_maj rest illusion
          else
            let local := if decide (r > b) then Red else Blue in
            if decide (local ≠ global_maj) then
              illusion_loop G opinions global_maj rest (illusion ++ [v])
            else
              illusion_loop G opinions global_maj rest illusion
      end
  end.

Definition static_majority_illusion (G : Graph) (opinions : gmap node Label)
  : result (Label * list node) :=
  let red := count_red (values opinions) in
  let blue := Z.of_nat (size opinions) - red in
  let global_maj := if decide (red > blue) then Red else Blue in
  let* illusion := illusion_loop G opinions global_maj (nodes G) [] in
  ret (global_maj, illusion).

(** The [for v in G] loop of one round; [new_op] starts empty. *)
Fixpoint update_loop (G : Graph) (opinions : gmap node Label)
    (vs : list node) (new_op : gmap node Label) : result (gmap node Label) :=
  match vs with
  | [] => ret new_op
  | v :: rest =>
      let nbrs := neighbors G v in
      match nbrs with
      | [] =>
          let* l := getitem opinions v in
          update_loop G opinions rest (<[v := l]> new_op)
      | _ :: _ =>
          let* r := red_among opinions nbrs in
          let b := Z.of_nat (length nbrs) - r in
          if decide (r > b) then
            update_loop G opinions rest (<[v := Red]> new_op)
          else if decide (b > r) then
            update_loop G opinions rest (<[v := Blue]> new_op)
          else
            let* l := getitem opinions v in
            update_loop G opinions rest (<[v := l]> new_op)
      end
  end.

Definition update (G : Graph) (opinions : gmap node Label)
  : result (gmap node Label) :=
  update_loop G opinions (nodes G) ∅.

Fixpoint simulation_loop (G : Graph) (rounds : nat)
    (opinions : gmap node Label) (illusion_series : list Z)
  : result (list Z * gmap node Label) :=
  match rounds with
  | O => ret (illusion_series, opinions)
  | S rounds' =>
      let* gi := static_majority_illusion G opinions in
      let illusion_series := illusion_series ++ [Z.of_nat (length gi.2)] in
      let* new_op := update G opinions in
      if decide (new_op = opinions) then ret (illusion_series, opinions)
      else simulation_loop G rounds' new_op illusion_series
  end.

(** [dynamic_simulation] with the module constant [max_rounds] as an
    argument. *)
Definition dynamic_simulation_with (rounds : nat) (G : Graph)
    (opinions_init : gmap node Label) : result (list Z * gmap node Label) :=
  simulation_loop G rounds opinions_init [].

Definition dynamic_simulation (G : Graph) (opinions_init : gmap node Label)
  : result (list Z * gmap node Label) :=
  dynamic_simulation_with max_rounds G opinions_init.

(** One record of the batch table. *)
Record trial_record := {
  infl : Z;
  frac : Q;
  static : Z;
  final : Z
}.

Section Main.

(** The order in which a [set] is iterated, and the draw made by
    [random.sample] on a population and a sample size. *)
Variable set_iter : gset node → list node.
Variable sample : list node → nat → list node.

(** [random.sample(population, k)] *)
Definition random_sample (population : list node) (k : Z)
  : result (list node) :=
  if decide (0 ≤ k ≤ Z.of_nat (length population)) then
    ret (sample population (Z.to_nat k))
  else raise ValueError.

(** [target = int(frac * N)]: the integer [N] is converted to a float, the
    product is the float product, and [int] truncates it. *)
Definition target_count (frac : Q) (N : Z) : Z :=
  int (float_mul frac (float_of_int N)).

(** [sorted(influencers, key=lambda v: G.degree(v), reverse=True)] *)
Definition sorted_infl (G : Graph) (influencers : gset node) : list node :=
  sorted_desc (degree G) (set_iter influencers).

(** The cap-or-fill block that builds [minority_set]. *)
Definition minority_set (G : Graph) (influencers : gset node) (target : Z)
  : result (gset node) :=
  if decide (Z.of_nat (size influencers) > target) then
    ret (list_to_set (slice_to (sorted_infl G influencers) target))
  else
    let minority_set := influencers in
    let rest := set_iter (list_to_set (nodes G) ∖ minority_set) in
    let extra := target - Z.of_nat (size minority_set) in
    if decide (extra > 0) then
      let* drawn := random_sample rest extra in
      ret (minority_set ∪ list_to_set drawn)
    else ret minority_set.

(** [opinions_init] for a graph, an influencer set and a fraction. *)
Definition opinions_init (G : Graph) (N : Z) (influencers : gset node)
    (frac : Q) : result (gmap node Label) :=
  let target := target_count frac N in
  let* minority := minority_set G influencers target in
  ret (opinions_of G minority).

(** The body of the batch loop for one graph and one fraction. *)
Definition batch_trial (G_run : Graph) (N : Z) (frac : Q)
  : result trial_record :=
  let* infl_run := identify_influencers_by_threshold G_run in
  let icount := Z.of_nat (size infl_run) in
  let* opinions := opinions_init G_run N infl_run frac in
  let* gi := static_majority_illusion G_run opinions in
  let static_ct := Z.of_nat (length gi.2) in
  let* sim := dynamic_simulation G_run opinions in
  let* fin := getlast sim.1 in
  ret {| infl := icount; frac := frac; static := static_ct; final := fin |}.

(** One pass of the single-run loop on a graph [G]: the values printed are
    the global majority, the static count, the peak and the last entry of
    the series. The plotting calls are left out. *)
Definition single_run (G : Graph) (N : Z) (frac : Q)
  : result (Label * Z * Z * Z) :=
  let* influencers := identify_influencers_by_threshold G in
  let* opinions_init := opinions_init G N influencers frac in
  let* gi := static_majority_illusion G opinions_init in
  let* sim := dynamic_simulation G opinions_init in
  let* peak := py_max sim.1 in
  let* fin := getlast sim.1 in
  ret (gi.1, Z.of_nat (length gi.2), peak, fin).

(** The three node lists drawn by [plot_static_illusion_detailed]:
    [infl], [extra_only] and [majority]. *)
Definition plot_static_illusion_detailed_nodelists (G : Graph)
    (influencers extra : gset node) : list node * list node * list node :=
  let infl := set_iter influencers in
  let extra_only := filter (λ v, v ∉ influencers) (set_iter extra) in
  let majority :=
    filter (λ v, (v ∉ influencers) ∧ (v ∉ extra)) (nodes G) in
  (infl, extra_only, majority).

(** The body of the [for frac in minority_fracs] loop of the batch, for a
    graph whose influencers are known. *)
Definition trial_body (G_run : Graph) (N : Z) (infl_run : gset node)
    (frac : Q) : result trial_record :=
  let icount := Z.of_nat (size infl_run) in
  let* opinions := opinions_init G_run N infl_run frac in
  let* gi := static_majority_illusion G_run opinions in
  let static_ct := Z.of_nat (length gi.2) in
  let* sim := dynamic_simulation G_run opinions in
  let* fin := getlast sim.1 in
  ret {| infl := icount; frac := frac; static := static_ct; final := fin |}.

(** [for frac in minority_fracs: ... records.append(...)] *)
Fixpoint fracs_loop (G_run : Graph) (N : Z) (infl_run : gset node)
    (fracs : list Q) (records : list trial_record)
  : result (list trial_record) :=
  match fracs with
  | [] => ret records
  | frac :: rest =>
      let* r := trial_body G_run N infl_run frac in
      fracs_loop G_run N infl_run rest (records ++ [r])
  end.

(** [for run in range(runs)] over the graphs generated in the runs. *)
Fixpoint runs_loop (graphs : list Graph) (N : Z) (fracs : list Q)
    (records : list trial_record) : result (list trial_record) :=
  match graphs with
  | [] => ret records
  | G_run :: rest =>
      let* infl_run := identify_influencers_by_threshold G_run in
      let* records := fracs_loop G_run N infl_run fracs records in
      runs_loop rest N fracs records
  end.

End Main.

End Experiment.

(** ** Notions the properties are stated with *)

(** Every node of the graph has a label. *)
Definition total_on (G : Graph) (opinions : gmap node Label) : Prop :=
  ∀ v, v ∈ nodes G → is_Some (opinions !! v).

(** Adjacency entries are nodes of the graph, and no node is listed twice. *)
Definition graph_wf (G : Graph) : Prop :=
  NoDup (nodes G) ∧ ∀ v u, v ∈ nodes G → u ∈ neighbors G v → u ∈ nodes G.

(** Label counts of a labeling. *)
Definition red_count (opinions : gmap node Label) : Z :=
  Z.of_nat (length (filter (λ l, l = Red) (values opinions))).
Definition blue_count (opinions : gmap node Label) : Z :=
  Z.of_nat (length (filter (λ l, l = Blue) (values opinions))).

(** Neighbor label counts of a node. *)
Definition nbr_red (G : Graph) (opinions : gmap node Label) (v : node) : Z :=
  Z.of_nat (length (filter (λ u, opinions !! u = Some Red) (neighbors G v))).
Definition nbr_blue (G : Graph) (opinions : gmap node Label) (v : node) : Z :=
  Z.of_nat (length (filter (λ u, opinions !! u = Some Blue) (neighbors G v))).

(** The strict majority label among the neighbors of [v], if there is one. *)
Definition local_majority (G : Graph) (opinions : gmap node Label) (v : node)
  : option Label :=
  if decide (nbr_red G opinions v > nbr_blue G opinions v) then Some Red
  else if decide (nbr_blue G opinions v > nbr_red G opinions v) then Some Blue
  else None.

(** The global majority label: [Red] on a strict majority of [Red] labels. *)
Definition global_majority (opinions : gmap node Label) : Label :=
  if decide (red_count opinions > blue_count opinions) then Red else Blue.

(** The condition under which the detector appends a node. *)
Definition illusioned (G : Graph) (opinions : gmap node Label)
    (global_maj : Label) (v : node) : Prop :=
  neighbors G v ≠ []
  ∧ nbr_red G opinions v ≠ nbr_blue G opinions v
  ∧ local_majority G opinions v ≠ Some global_maj.

#[global] Instance illusioned_dec G opinions global_maj v :
  Decision (illusioned G opinions global_maj v).
Proof. unfold illusioned. apply _. Defined.

(** The label of [v] after a round of the majority vote: the strict local
    majority if there is one, the label it has otherwise. *)
Definition next_label (G : Graph) (opinions : gmap node Label) (v : node)
  : option Label :=
  match local_majority G opinions v with
  | Some l => Some l
  | None => opinions !! v
  end.

(** The condition under which the one-way update turns a node [Red]. *)
Definition flips (phi : Q) (G : Graph) (opinions : gmap node Label) (v : node)
  : Prop :=
  opinions !! v = Some Blue
  ∧ (phi * inject_Z (degree G v) < inject_Z (nbr_red G opinions v))%Q.

#[global] Instance flips_dec phi G opinions v : Decision (flips phi G opinions v).
Proof. unfold flips. apply _. Defined.

(** The number of nodes of the graph labeled [Blue]. *)
Definition blue_nodes (G : Graph) (opinions : gmap node Label) : nat :=
  length (filter (λ v, opinions !! v = Some Blue) (nodes G)).

(** What is asked of the two parameters: a set is iterated once over each
    of its elements; a sample of size [k] is made of [k] distinct positions
    of the population. *)
Definition set_iter_ok (set_iter : gset node → list node) : Prop :=
  ∀ s, set_iter s ≡ₚ elements s.
Definition sample_ok (sample : list node → nat → list node) : Prop :=
  ∀ population k, (k ≤ length population)%nat →
    sample population k ⊆+ population ∧ length (sample population k) = k.

(** [round(x)] on a float: to the nearest integer, halves to the even one. *)
Definition py_round (x : Q) : Z :=
  let f := Qfloor x in
  let d := (x - inject_Z f)%Q in
  if decide (d < 1 # 2)%Q then f
  else if decide ((1 # 2) < d)%Q then f + 1
  else if Z.even f then f else f + 1.

(** [u] comes before [w] in the list [l]. *)
Definition before (l : list node) (u w : node) : Prop :=
  ∃ i j : nat, l !! i = Some u ∧ l !! j = Some w ∧ (i < j)%nat.

(** [S] is the top [target] of [influencers] for an order [ranks_above]. *)
Definition top_of (ranks_above : node → node → Prop) (influencers : gset node)
    (target : Z) (S : gset node) : Prop :=
  S ⊆ influencers ∧ Z.of_nat (size S) = target ∧
  ∀ u w, u ∈ S → w ∈ influencers → w ∉ S → ranks_above u w.

(** Degree descending, ties by increasing or by decreasing node identifier. *)
Definition by_degree_then_id_up (G : Graph) (u w : node) : Prop :=
  degree G u > degree G w ∨ (degree G u = degree G w ∧ (u < w)%nat).
Definition by_degree_then_id_down (G : Graph) (u w : node) : Prop :=
  degree G u > degree G w ∨ (degree G u = degree G w ∧ (w < u)%nat).

(** Degree descending, ties by the position in a given enumeration. *)
Definition by_degree_then_position (G : Graph) (l : list node) (u w : node)
  : Prop :=
  degree G u > degree G w ∨ (degree G u = degree G w ∧ before l u w).

(** ** Graphs and labelings used in the examples *)

(** A star with five leaves next to a triangle. *)
Definition star_and_triangle : Graph :=
  {| nodes := seq 0 9;
     neighbors := λ v,
       match v with
       | 0 => [1; 2; 3; 4; 5]
       | 1 | 2 | 3 | 4 | 5 => [0]
       | 6 => [7; 8]
       | 7 => [6; 8]
       | 8 => [6; 7]
       | _ => []
       end%nat |}.

(** Two nodes joined by an edge, one of each label. *)
Definition pair_graph : Graph :=
  {| nodes := [0; 1]%nat;
     neighbors := λ v, match v with 0 => [1] | 1 => [0] | _ => [] end%nat |}.

Definition pair_opinions : gmap node Label :=
  {[ 0%nat := Red; 1%nat := Blue ]}.

(** The graph without nodes. *)
Definition empty_graph : Graph :=
  {| nodes := []; neighbors := λ _, [] |}.

(** The star and triangle with the center [Red] and all other nodes
    [Blue]. *)
Definition center_red : gmap node Label :=
  opinions_of star_and_triangle {[0%nat]}.

(** Three hubs of four leaves each (nodes 1, 8 and 10), and a sixteenth
    node hanging from a leaf. *)
Definition three_hubs : Graph :=
  {| nodes := seq 0 16;
     neighbors := λ v,
       match v with
       | 0 => [1; 15]
       | 1 => [0; 2; 3; 4]
       | 2 | 3 | 4 => [1]
       | 8 => [5; 6; 7; 9]
       | 5 | 6 | 7 | 9 => [8]
       | 10 => [11; 12; 13; 14]
       | 11 | 12 | 13 | 14 => [10]
       | 15 => [0]
       | _ => []
       end%nat |}.

(** An iteration order of sets: by the residue of the element modulo 8, the
    way a hash table of eight slots is walked. *)
Definition slot_le (u w : node) : Prop := (u mod 8 ≤ w mod 8)%nat.

#[global] Instance slot_le_dec u w : Decision (slot_le u w).
Proof. unfold slot_le. apply _. Defined.

Definition slot_iter (s : gset node) : list node :=
  merge_sort slot_le (elements s).

(** A sampler: the first [k] entries of the population. *)
Definition first_k (population : list node) (k : nat) : list node :=
  take k population.

(** Four nodes without edges. *)
Definition isolated4 : Graph :=
  {| nodes := seq 0 4; neighbors := λ _, [] |}.

(** Membership in a list given by its elements. *)
Ltac members H :=
  repeat (apply elem_of_cons in H as [->|H]);
  try (by apply elem_of_nil in H).

(** ** Basic facts: the error monad, label counts, neighbor reads *)

Lemma bind_inr {A B} (m : result A) (k : A → result B) (b : B) :
  bind m k = inr b ↔ ∃ a, m = inr a ∧ k a = inr b.
Proof.
  destruct m as [e|a]; simpl; split.
  - discriminate.
  - intros (a & Ha & _). discriminate.
  - eauto.
  - intros (a' & Ha & Hk). by simplify_eq.
Qed.

Lemma red_blue_split (ls : list Label) :
  (length (filter (λ l, l = Red) ls) + length (filter (λ l, l = Blue) ls)
   = length ls)%nat.
Proof.
  induction ls as [|[] ls IH]; [done|..];
    rewrite !filter_cons; repeat case_decide; simplify_eq; simpl; lia.
Qed.

Lemma length_values (opinions : gmap node Label) :
  length (values opinions) = size opinions.
Proof. unfold values. by rewrite length_fmap, length_map_to_list. Qed.

Lemma count_red_values (opinions : gmap node Label) :
  count_red (values opinions) = red_count opinions.
Proof. done. Qed.

Lemma size_minus_red (opinions : gmap node Label) :
  Z.of_nat (size opinions) - count_red (values opinions) = blue_count opinions.
Proof.
  unfold count_red, blue_count.
  pose proof (red_blue_split (values opinions)) as H.
  rewrite length_values in H. lia.
Qed.

Lemma labels_of_total (opinions : gmap node Label) (nbrs : list node) :
  (∀ u, u ∈ nbrs → is_Some (opinions !! u)) →
  ∃ ls, labels_of opinions nbrs = inr ls
        ∧ Forall2 (λ u l, opinions !! u = Some l) nbrs ls.
Proof.
  induction nbrs as [|u nbrs IH]; intros Htot; simpl.
  - exists []. split; [done | constructor].
  - destruct (Htot u) as [l Hl]; [left|].
    destruct IH as (ls & Hls & Hall).
    { intros w Hw. apply Htot. by right. }
    exists (l :: ls). unfold getitem. rewrite Hl. simpl. rewrite Hls. simpl.
    split; [done | by constructor].
Qed.

Lemma count_red_lookup (opinions : gmap node Label) nbrs ls :
  Forall2 (λ u l, opinions !! u = Some l) nbrs ls →
  length (filter (λ l, l = Red) ls)
  = length (filter (λ u, opinions !! u = Some Red) nbrs).
Proof.
  induction 1 as [|u l nbrs ls Hl _ IH]; [done|].
  rewrite !filter_cons. rewrite Hl.
  destruct l; repeat case_decide; simplify_eq; simpl; congruence.
Qed.

Lemma count_blue_lookup (opinions : gmap node Label) nbrs ls :
  Forall2 (λ u l, opinions !! u = Some l) nbrs ls →
  length (filter (λ l, l = Blue) ls)
  = length (filter (λ u, opinions !! u = Some Blue) nbrs).
Proof.
  induction 1 as [|u l nbrs ls Hl _ IH]; [done|].
  rewrite !filter_cons. rewrite Hl.
  destruct l; repeat case_decide; simplify_eq; simpl; congruence.
Qed.

(** With every neighbor labeled, the neighbor count of the code is the
    count of [Red] neighbors, and the remainder the count of [Blue] ones. *)
Lemma red_among_total (G : Graph) (opinions : gmap node Label) (v : node) :
  (∀ u, u ∈ neighbors G v → is_Some (opinions !! u)) →
  red_among opinions (neighbors G v) = inr (nbr_red G opinions v)
  ∧ Z.of_nat (length (neighbors G v)) - nbr_red G opinions v
    = nbr_blue G opinions v.
Proof.
  intros Htot. destruct (labels_of_total _ _ Htot) as (ls & Hls & Hall).
  unfold red_among, nbr_red, nbr_blue. rewrite Hls. simpl. unfold count_red.
  rewrite <- (count_red_lookup _ _ _ Hall), <- (count_blue_lookup _ _ _ Hall).
  pose proof (red_blue_split ls) as Hs.
  apply Forall2_length in Hall. split; [done | lia].
Qed.

Lemma neighbors_labeled (G : Graph) (opinions : gmap node Label) :
  graph_wf G → total_on G opinions →
  ∀ v, v ∈ nodes G → ∀ u, u ∈ neighbors G v → is_Some (opinions !! u).
Proof. intros [_ Hcl] Htot v Hv u Hu. eauto. Qed.

(** ** The illusion detector *)

Lemma ba_illusion_loop_eq G opinions gm vs acc :
  BA.illusion_loop G opinions gm vs acc
  = Experiment.illusion_loop G opinions gm vs acc.
Proof. revert acc. induction vs as [|v vs IH]; intros acc; simpl; [done|].
  destruct (neighbors G v); [done|].
  destruct (red_among _ _); simpl; [done|].
  repeat case_decide; by rewrite ?IH.
Qed.

Lemma ba_static_eq G opinions :
  BA.static_majority_illusion G opinions
  = Experiment.static_majority_illusion G opinions.
Proof.
  unfold BA.static_majority_illusion, Experiment.static_majority_illusion.
  by rewrite ba_illusion_loop_eq.
Qed.

Lemma illusion_loop_total G opinions gm vs acc :
  (∀ v, v ∈ vs → ∀ u, u ∈ neighbors G v → is_Some (opinions !! u)) →
  Experiment.illusion_loop G opinions gm vs acc
  = inr (acc ++ filter (illusioned G opinions gm) vs).
Proof.
  revert acc. induction vs as [|v vs IH]; intros acc Hlab; simpl.
  - by rewrite app_nil_r.
  - assert (Hrest : ∀ w, w ∈ vs → ∀ u, u ∈ neighbors G w → is_Some (opinions !! u)).
    { intros w Hw. apply Hlab. by right. }
    destruct (red_among_total G opinions v) as [Hr Hb]; [apply Hlab; left|].
    rewrite filter_cons.
    destruct (neighbors G v) as [|n ns] eqn:Hn.
    { rewrite IH by done. rewrite decide_False; [done|]. intros [? _]. done. }
    simpl length in Hb. rewrite Hr. simpl bind. cbv zeta. rewrite Hb.
    assert (Hne : neighbors G v ≠ []) by by rewrite Hn.
    destruct (decide (illusioned G opinions gm v)) as [(_ & Hneq & Hloc)|Hno].
    + unfold local_majority in Hloc.
      repeat case_decide; rewrite IH by done; rewrite <- ?app_assoc;
        try done; exfalso; destruct gm; naive_solver lia.
    + assert (Hno' : ¬ (nbr_red G opinions v ≠ nbr_blue G opinions v
                        ∧ local_majority G opinions v ≠ Some gm)).
      { intros []. by apply Hno. }
      unfold local_majority in Hno'.
      repeat case_decide; rewrite IH by done; try done;
        exfalso; apply Hno'; destruct gm; naive_solver lia.
Qed.

Lemma static_total G opinions :
  graph_wf G → total_on G opinions →
  Experiment.static_majority_illusion G opinions
  = inr (global_majority opinions,
         filter (illusioned G opinions (global_majority opinions)) (nodes G)).
Proof.
  intros Hwf Htot. unfold Experiment.static_majority_illusion. cbv zeta.
  rewrite size_minus_red, count_red_values.
  rewrite illusion_loop_total by eauto using neighbors_labeled.
  done.
Qed.

Lemma ba_static_total G opinions :
  graph_wf G → total_on G opinions →
  BA.static_majority_illusion G opinions
  = inr (global_majority opinions,
         filter (illusioned G opinions (global_majority opinions)) (nodes G)).
Proof.
  intros Hwf Htot. etrans; [apply ba_static_eq | by apply static_total].
Qed.

(** Well-formedness of a graph given by its lists, by checking them. *)
Lemma graph_wf_check G :
  NoDup (nodes G) →
  Forall (λ v, Forall (λ u, u ∈ nodes G) (neighbors G v)) (nodes G) →
  graph_wf G.
Proof.
  intros Hnd Hall. split; [done|]. intros v u Hv Hu.
  rewrite Forall_forall in Hall. specialize (Hall v Hv).
  rewrite Forall_forall in Hall. by apply Hall.
Qed.

Lemma pair_graph_wf : graph_wf pair_graph.
Proof.
  apply graph_wf_check; apply (bool_decide_unpack _); by vm_compute.
Qed.

Lemma three_hubs_wf : graph_wf three_hubs.
Proof.
  apply graph_wf_check; apply (bool_decide_unpack _); by vm_compute.
Qed.

Lemma pair_opinions_total : total_on pair_graph pair_opinions.
Proof. intros v Hv. simpl in Hv. members Hv; by eexists. Qed.

(** C1, as stated, fails: on two nodes of different labels the counts are
    equal, the labeling is total, and the detector returns [Blue], not
    [Red], in both programs. *)
Lemma tie_does_not_return_minority :
  graph_wf pair_graph ∧ total_on pair_graph pair_opinions
  ∧ red_count pair_opinions = blue_count pair_opinions
  ∧ Experiment.static_majority_illusion pair_graph pair_opinions
    = inr (Blue, [1%nat])
  ∧ BA.static_majority_illusion pair_graph pair_opinions
    = inr (Blue, [1%nat])
  ∧ ¬ ∃ ill, Experiment.static_majority_illusion pair_graph pair_opinions
             = inr (Red, ill).
Proof.
  split_and!; [apply pair_graph_wf | apply pair_opinions_total | done..|].
  intros [ill Hill]. vm_compute in Hill. discriminate.
Qed.

(** C1, amended: for every total labeling with equal [Red] and [Blue]
    counts the label-count comparison lets Majority win: both detectors
    return [Blue], with the illusion set taken against [Blue]. *)
Theorem tie_returns_majority_label G opinions :
  graph_wf G → total_on G opinions →
  red_count opinions = blue_count opinions →
  Experiment.static_majority_illusion G opinions
  = inr (Blue, filter (illusioned G opinions Blue) (nodes G))
  ∧ BA.static_majority_illusion G opinions
    = inr (Blue, filter (illusioned G opinions Blue) (nodes G)).
Proof.
  intros Hwf Htot Htie. rewrite ba_static_total, static_total by done.
  unfold global_majority. rewrite decide_False by lia. done.
Qed.

Lemma tie_returns_majority_label_witness :
  Experiment.static_majority_illusion pair_graph pair_opinions
  = inr (Blue, filter (illusioned pair_graph pair_opinions Blue)
                 (nodes pair_graph))
  ∧ BA.static_majority_illusion pair_graph pair_opinions
    = inr (Blue, filter (illusioned pair_graph pair_opinions Blue)
                   (nodes pair_graph)).
Proof.
  apply (tie_returns_majority_label pair_graph pair_opinions).
  - apply pair_graph_wf.
  - apply pair_opinions_total.
  - reflexivity.
Defined.

(** C2: for every total labeling with equal [Red] and [Blue] counts the
    strict comparison [red > blue] fails, so the detector of either program
    returns [Blue] as the global majority label. *)
Theorem strict_comparison_tie_is_majority G opinions :
  graph_wf G → total_on G opinions →
  red_count opinions = blue_count opinions →
  ∃ illusion,
    Experiment.static_majority_illusion G opinions = inr (Blue, illusion)
    ∧ BA.static_majority_illusion G opinions = inr (Blue, illusion).
Proof.
  intros Hwf Htot Htie.
  exists (filter (illusioned G opinions (global_majority opinions)) (nodes G)).
  rewrite ba_static_total, static_total by done.
  assert (global_majority opinions = Blue) as ->; [|done].
  unfold global_majority. case_decide; [lia | done].
Qed.

Lemma strict_comparison_tie_is_majority_witness :
  ∃ illusion,
    Experiment.static_majority_illusion pair_graph pair_opinions
    = inr (Blue, illusion)
    ∧ BA.static_majority_illusion pair_graph pair_opinions
      = inr (Blue, illusion).
Proof.
  apply (strict_comparison_tie_is_majority pair_graph pair_opinions).
  - apply pair_graph_wf.
  - apply pair_opinions_total.
  - reflexivity.
Defined.

(** C6: on a well-formed graph with a total labeling the detector returns
    the global majority label and a list that holds exactly the nodes with
    at least one neighbor, unequal neighbor counts and a local majority
    other than the returned label; isolated nodes and nodes with a local
    tie are never in it. *)
Theorem illusion_set_exact G opinions :
  graph_wf G → total_on G opinions →
  ∃ global_maj illusion,
    Experiment.static_majority_illusion G opinions = inr (global_maj, illusion)
    ∧ global_maj = global_majority opinions
    ∧ (∀ v, v ∈ illusion ↔
            v ∈ nodes G ∧ neighbors G v ≠ []
            ∧ nbr_red G opinions v ≠ nbr_blue G opinions v
            ∧ local_majority G opinions v ≠ Some global_maj)
    ∧ (∀ v, neighbors G v = [] → v ∉ illusion)
    ∧ (∀ v, nbr_red G opinions v = nbr_blue G opinions v → v ∉ illusion).
Proof.
  intros Hwf Htot. eexists _, _. split; [by apply static_total|].
  split; [done|].
  assert (Hchar : ∀ v,
    v ∈ filter (illusioned G opinions (global_majority opinions)) (nodes G) ↔
    v ∈ nodes G ∧ neighbors G v ≠ []
    ∧ nbr_red G opinions v ≠ nbr_blue G opinions v
    ∧ local_majority G opinions v ≠ Some (global_majority opinions)).
  { intros v. rewrite list_elem_of_filter. unfold illusioned. tauto. }
  split_and!; [done|..]; intros v Hv Hin; apply Hchar in Hin; tauto.
Qed.

Lemma illusion_set_exact_witness :
  ∃ global_maj illusion,
    Experiment.static_majority_illusion pair_graph pair_opinions
    = inr (global_maj, illusion)
    ∧ global_maj = global_majority pair_opinions
    ∧ (∀ v, v ∈ illusion ↔
            v ∈ nodes pair_graph ∧ neighbors pair_graph v ≠ []
            ∧ nbr_red pair_graph pair_opinions v
              ≠ nbr_blue pair_graph pair_opinions v
            ∧ local_majority pair_graph pair_opinions v ≠ Some global_maj)
    ∧ (∀ v, neighbors pair_graph v = [] → v ∉ illusion)
    ∧ (∀ v, nbr_red pair_graph pair_opinions v
            = nbr_blue pair_graph pair_opinions v → v ∉ illusion).
Proof.
  apply (illusion_set_exact pair_graph pair_opinions).
  - apply pair_graph_wf.
  - apply pair_opinions_total.
Defined.

(** ** The influencer selector on the empty graph *)

(** C9, as stated, fails: on the graph without nodes the selector of either
    program raises, and what it raises is the division's own
    [ZeroDivisionError], not another error. *)
Lemma empty_graph_raw_division_error :
  number_of_nodes empty_graph = 0
  ∧ ¬ (∃ e, Experiment.identify_influencers_by_threshold empty_graph = inl e
            ∧ e ≠ ZeroDivisionError)
  ∧ ¬ (∃ e, BA.identify_influencers_by_threshold empty_graph = inl e
            ∧ e ≠ ZeroDivisionError).
Proof.
  split; [done|]. split; intros (e & He & Hne); vm_compute in He; congruence.
Qed.

(** C9, amended: on a graph with zero nodes the selector of either program
    returns no set: it raises the [ZeroDivisionError] of the mean-degree
    division. *)
Theorem identify_zero_nodes_raises G :
  number_of_nodes G = 0 →
  Experiment.identify_influencers_by_threshold G = inl ZeroDivisionError
  ∧ BA.identify_influencers_by_threshold G = inl ZeroDivisionError.
Proof.
  intros Hn. unfold Experiment.identify_influencers_by_threshold,
    BA.identify_influencers_by_threshold.
  by rewrite !decide_True.
Qed.

Lemma identify_zero_nodes_raises_witness :
  Experiment.identify_influencers_by_threshold empty_graph
  = inl ZeroDivisionError
  ∧ BA.identify_influencers_by_threshold empty_graph = inl ZeroDivisionError.
Proof. apply (identify_zero_nodes_raises empty_graph). reflexivity. Defined.

(** ** One-way threshold diffusion ([ba.py]) *)

Lemma red_count_size (opinions : gmap node Label) :
  red_count opinions
  = Z.of_nat (size (filter (λ kv : node * Label, kv.2 = Red) opinions)).
Proof.
  unfold red_count, values. f_equal.
  rewrite <- length_map_to_list, map_filter_alt.
  rewrite map_to_list_to_map.
  - generalize (map_to_list opinions). intros l.
    induction l as [|[k x] l IH]; [done|].
    rewrite fmap_cons, !filter_cons. simpl.
    case_decide; simpl; by rewrite IH.
  - eapply sublist_NoDup; [apply (NoDup_fst_map_to_list opinions)|].
    apply fmap_sublist, sublist_filter.
Qed.

Lemma red_count_mono (m1 m2 : gmap node Label) :
  (∀ k, m1 !! k = Some Red → m2 !! k = Some Red) →
  red_count m1 ≤ red_count m2.
Proof.
  intros Hkeep. rewrite !red_count_size. apply inj_le, map_subseteq_size.
  apply map_subseteq_spec. intros k x.
  rewrite !map_lookup_filter_Some. simpl. intros [Hk ->]. auto.
Qed.

Lemma filter_none {A} (P : A → Prop) `{!∀ x, Decision (P x)} (l : list A) :
  (∀ x, x ∈ l → ¬ P x) → filter P l = [].
Proof.
  induction l as [|x l IH]; intros Hno; [done|].
  rewrite filter_cons, decide_False by (apply Hno; left).
  apply IH. intros; apply Hno; by right.
Qed.

Lemma filter_length_lt {A} (P Q : A → Prop)
    `{!∀ x, Decision (P x), !∀ x, Decision (Q x)} (l : list A) (a : A) :
  (∀ x, x ∈ l → Q x → P x) → a ∈ l → P a → ¬ Q a →
  (length (filter Q l) < length (filter P l))%nat.
Proof.
  intros Himp Ha HPa HQa.
  assert (Hle : ∀ l', (∀ x, x ∈ l' → Q x → P x) →
                      (length (filter Q l') ≤ length (filter P l'))%nat).
  { induction l' as [|x l' IH]; intros Hl'; [done|].
    rewrite !filter_cons.
    assert (length (filter Q l') ≤ length (filter P l'))%nat
      by (apply IH; intros; apply Hl'; [by right|done]).
    repeat case_decide; simpl; try lia.
    exfalso. naive_solver (by left). }
  induction l as [|x l IH]; [by apply elem_of_nil in Ha|].
  rewrite !filter_cons. apply elem_of_cons in Ha as [<-|Ha].
  - rewrite (decide_True (P:=P a)), (decide_False (P:=Q a)) by done. simpl.
    assert (length (filter Q l) ≤ length (filter P l))%nat; [|lia].
    apply Hle. intros; apply Himp; [by right|done].
  - assert (length (filter Q l) < length (filter P l))%nat.
    { apply IH; [|done]. intros; apply Himp; [by right|done]. }
    repeat case_decide; simpl; try lia.
    exfalso. naive_solver (by left).
Qed.

(** What one round computes, key by key. *)
Lemma ba_update_loop_total phi G opinions vs acc :
  (∀ v, v ∈ vs → is_Some (opinions !! v)) →
  (∀ v, v ∈ vs → ∀ u, u ∈ neighbors G v → is_Some (opinions !! u)) →
  ∃ new_op,
    BA.update_loop phi G opinions vs acc = inr new_op
    ∧ ∀ k, new_op !! k
           = if decide (k ∈ vs ∧ flips phi G opinions k) then Some Red
             else acc !! k.
Proof.
  revert acc. induction vs as [|v vs IH]; intros acc Hv Hn;
    cbn [BA.update_loop].
  - exists acc. split; [done|]. intros k. rewrite decide_False; [done|].
    intros [Hk _]. by apply elem_of_nil in Hk.
  - destruct (Hv v) as [l Hl]; [left|]. unfold getitem. rewrite Hl.
    cbn [bind ret].
    destruct (red_among_total G opinions v) as [Hr _]; [apply Hn; left|].
    assert (Hv' : ∀ w, w ∈ vs → is_Some (opinions !! w))
      by (intros; apply Hv; by right).
    assert (Hn' : ∀ w, w ∈ vs → ∀ u, u ∈ neighbors G w → is_Some (opinions !! u))
      by (intros w ?; apply Hn; by right).
    assert (Hskip : ¬ flips phi G opinions v →
      ∃ new_op, BA.update_loop phi G opinions vs acc = inr new_op
        ∧ ∀ k, new_op !! k
               = if decide (k ∈ v :: vs ∧ flips phi G opinions k)
                 then Some Red else acc !! k).
    { intros Hnf. destruct (IH acc Hv' Hn') as (new_op & -> & Hnew).
      exists new_op. split; [done|]. intros k. rewrite Hnew.
      apply decide_ext. rewrite elem_of_cons.
      split; [tauto | intros [[->|?] ?]; tauto]. }
    case_decide as Hblue; [|apply Hskip; intros [? _]; congruence].
    subst l. rewrite Hr. cbn [bind].
    case_decide as Hthr; [|apply Hskip; intros [_ ?]; done].
    destruct (IH (<[v:=Red]> acc) Hv' Hn') as (new_op & -> & Hnew).
    exists new_op. split; [done|]. intros k. rewrite Hnew.
    destruct (decide (k = v)) as [->|Hkv].
    + rewrite lookup_insert_eq. rewrite (decide_True (P:=v ∈ v :: vs ∧ _)).
      * by case_decide.
      * split; [left | by split].
    + rewrite lookup_insert_ne by done.
      apply decide_ext. rewrite elem_of_cons. tauto.
Qed.

Lemma ba_update_total phi G opinions :
  graph_wf G → total_on G opinions →
  ∃ new_op,
    BA.update phi G opinions = inr new_op
    ∧ ∀ k, new_op !! k
           = if decide (k ∈ nodes G ∧ flips phi G opinions k) then Some Red
             else opinions !! k.
Proof.
  intros Hwf Htot. apply ba_update_loop_total; [done|].
  by apply neighbors_labeled.
Qed.

Section OneWay.
Context (phi : Q) (G : Graph) (Hwf : graph_wf G).

Lemma ba_update_facts opinions :
  total_on G opinions →
  ∃ new_op,
    BA.update phi G opinions = inr new_op
    ∧ total_on G new_op
    ∧ (∀ v, opinions !! v = Some Red → new_op !! v = Some Red)
    ∧ (∀ v, new_op !! v = Some Blue → opinions !! v = Some Blue)
    ∧ (new_op ≠ opinions →
       ∃ v, v ∈ nodes G ∧ opinions !! v = Some Blue ∧ new_op !! v = Some Red).
Proof.
  intros Htot. destruct (ba_update_total phi G opinions Hwf Htot)
    as (new_op & Hupd & Hnew).
  exists new_op. split_and!; [done|..].
  - intros v Hv. rewrite Hnew. case_decide; [by eexists | by apply Htot].
  - intros v Hred. rewrite Hnew. by case_decide.
  - intros v. rewrite Hnew. by case_decide.
  - intros Hne.
    destruct (decide (Exists (flips phi G opinions) (nodes G))) as [Hex|Hno].
    + apply Exists_exists in Hex as (v & Hv & Hflip).
      exists v. split_and!; [done | apply Hflip |].
      rewrite Hnew. by rewrite decide_True.
    + exfalso. apply Hne, map_eq. intros k. rewrite Hnew.
      case_decide as Hk; [|done]. exfalso. apply Hno, Exists_exists.
      exists k. tauto.
Qed.

Lemma ba_update_blue_nodes opinions new_op :
  total_on G opinions → BA.update phi G opinions = inr new_op →
  new_op ≠ opinions → (blue_nodes G new_op < blue_nodes G opinions)%nat.
Proof.
  intros Htot Hupd Hne.
  destruct (ba_update_facts opinions Htot)
    as (new_op' & Hupd' & _ & _ & Hblue & Hchange).
  rewrite Hupd in Hupd'. simplify_eq.
  destruct (Hchange Hne) as (v & Hv & Hb & Hr).
  unfold blue_nodes. apply (filter_length_lt _ _ _ v); [|done..|].
  - intros x _. apply Hblue.
  - rewrite Hr. discriminate.
Qed.

(** The loop and the iterated update, up to the first round without a
    change. *)
Lemma ba_first_fixed_point n : ∀ opinions,
  total_on G opinions → (blue_nodes G opinions ≤ n)%nat →
  ∃ k final,
    (k ≤ n)%nat
    ∧ (BA.update phi G opinions = inr opinions → k = 0%nat)
    ∧ BA.rounds_after phi G k opinions = inr final
    ∧ BA.update phi G final = inr final
    ∧ ∀ rounds series, (k < rounds)%nat →
        ∃ s, BA.simulation_loop phi G rounds opinions series
             = inr (series ++ s, final)
             ∧ length s = S k.
Proof.
  induction n as [|n IH]; intros opinions Htot Hblue;
    destruct (ba_update_facts opinions Htot) as (new_op & Hupd & Htot' & _);
    destruct (decide (new_op = opinions)) as [->|Hne].
  1, 3: exists 0%nat, opinions; split_and!; [lia | done | done | done |];
    intros [|rounds] series Hr; [lia|]; simpl;
    rewrite ba_static_total by done; simpl; rewrite Hupd; simpl;
    rewrite decide_True by done; by eexists [_].
  - pose proof (ba_update_blue_nodes _ _ Htot Hupd Hne). lia.
  - pose proof (ba_update_blue_nodes _ _ Htot Hupd Hne) as Hlt.
    destruct (IH new_op Htot')
      as (k & final & Hk & _ & Hrounds & Hfix & Hloop); [lia|].
    exists (S k), final. split_and!; [lia | | | done |].
    { intros Hsame. rewrite Hupd in Hsame. by simplify_eq. }
    { simpl. by rewrite Hupd. }
    intros [|rounds] series Hr; [lia|]. simpl.
    rewrite ba_static_total by done. simpl. rewrite Hupd. simpl.
    rewrite decide_False by done.
    destruct (Hloop rounds
      (series ++ [Z.of_nat (length
         (filter (illusioned G opinions (global_majority opinions))
            (nodes G)))])) as (s & -> & Hs); [lia|].
    eexists (_ :: s). rewrite <- app_assoc. split; [done|]. simpl. lia.
Qed.

(** The loop under any number of rounds: it returns, with between one and
    [rounds] entries, a total labeling with at least as many [Red]
    labels. *)
Lemma ba_simulation_loop_total rounds : ∀ opinions series,
  total_on G opinions →
  ∃ s final,
    BA.simulation_loop phi G rounds opinions series = inr (series ++ s, final)
    ∧ (length s ≤ rounds)%nat ∧ (1 ≤ rounds → 1 ≤ length s)%nat
    ∧ total_on G final
    ∧ red_count opinions ≤ red_count final
    ∧ ∃ j, (j ≤ rounds)%nat ∧ BA.rounds_after phi G j opinions = inr final.
Proof.
  induction rounds as [|rounds IH]; intros opinions series Htot; simpl.
  - exists [], opinions. rewrite app_nil_r.
    split_and!; [done | done | lia | done | lia |]. by exists 0%nat.
  - rewrite ba_static_total by done. simpl.
    destruct (ba_update_facts opinions Htot)
      as (new_op & Hupd & Htot' & Hkeep & _). rewrite Hupd. simpl.
    case_decide.
    + eexists [_], opinions.
      split_and!; [done | simpl; lia.. | done | lia |].
      exists 0%nat. split; [lia | done].
    + destruct (IH new_op
        (series ++ [Z.of_nat (length
           (filter (illusioned G opinions (global_majority opinions))
              (nodes G)))]) Htot')
        as (s & final & -> & Hlen & _ & Hfin & Hred & j & Hj & Hafter).
      eexists (_ :: s), final. rewrite <- app_assoc.
      split_and!; [done | simpl; lia.. | done | |].
      * pose proof (red_count_mono _ _ Hkeep). lia.
      * exists (S j). split; [lia|]. simpl. by rewrite Hupd.
Qed.

Lemma ba_rounds_after_total k : ∀ opinions,
  total_on G opinions →
  ∃ opk, BA.rounds_after phi G k opinions = inr opk ∧ total_on G opk.
Proof.
  induction k as [|k IH]; intros opinions Htot; simpl; [by eexists|].
  destruct (ba_update_facts opinions Htot) as (new_op & -> & Htot' & _).
  simpl. by apply IH.
Qed.

(** With a threshold that is not negative, a graph whose nodes are all
    [Blue] is left as it is. *)
Lemma ba_all_blue_fixed opinions :
  (0 <= phi)%Q → total_on G opinions →
  blue_nodes G opinions = length (nodes G) →
  BA.update phi G opinions = inr opinions.
Proof.
  intros Hphi Htot Hall.
  assert (Hblue : ∀ v, v ∈ nodes G → opinions !! v = Some Blue).
  { intros v Hv. destruct (decide (opinions !! v = Some Blue)); [done|].
    pose proof (length_filter_lt (λ v, opinions !! v = Some Blue)
                  (nodes G) v Hv n) as Hlt.
    unfold blue_nodes in Hall. lia. }
  destruct (ba_update_facts opinions Htot) as (new_op & Hupd & _ & _ & _ & Hch).
  rewrite Hupd. f_equal.
  destruct (decide (new_op = opinions)) as [|Hne]; [done|exfalso].
  destruct (ba_update_total phi G opinions Hwf Htot) as (new_op' & Hupd' & Hnew).
  rewrite Hupd in Hupd'. simplify_eq.
  destruct (Hch Hne) as (v & Hv & _ & Hr).
  rewrite Hnew in Hr. case_decide as Hflip; [|by rewrite Hblue in Hr].
  destruct Hflip as (_ & _ & Hlt).
  assert (Hzero : nbr_red G opinions v = 0).
  { unfold nbr_red.
    rewrite filter_none; [done|].
    intros u Hu. rewrite Hblue; [discriminate|].
    by apply (proj2 Hwf v). }
  rewrite Hzero in Hlt.
  assert (0 <= phi * inject_Z (degree G v))%Q; [|by eapply Qlt_not_le].
  apply Qmult_le_0_compat; [done|].
  change 0%Q with (inject_Z 0). rewrite <- Zle_Qle.
  unfold degree. case_decide; lia.
Qed.

End OneWay.

(** C7: in the one-way threshold diffusion, on a well-formed graph with a
    total labeling and for any threshold, every round of the simulation
    returns a labeling in which each [Red] node is still [Red] and the
    number of [Red] labels is at least what it was; the labeling returned by
    the simulation, under any round cap, is one of these and has at least as
    many [Red] labels as the initial one. *)
Theorem one_way_minority_non_decreasing phi G opinions :
  graph_wf G → total_on G opinions →
  (∀ k, ∃ opk opk',
      BA.rounds_after phi G k opinions = inr opk
      ∧ BA.update phi G opk = inr opk'
      ∧ (∀ v, opk !! v = Some Red → opk' !! v = Some Red)
      ∧ red_count opk ≤ red_count opk')
  ∧ (∀ rounds, ∃ series final j,
      BA.dynamic_simulation_with phi rounds G opinions = inr (series, final)
      ∧ (j ≤ rounds)%nat
      ∧ BA.rounds_after phi G j opinions = inr final
      ∧ red_count opinions ≤ red_count final).
Proof.
  intros Hwf Htot. split.
  - intros k.
    destruct (ba_rounds_after_total phi G Hwf k opinions Htot)
      as (opk & Hk & Htotk).
    destruct (ba_update_facts phi G Hwf opk Htotk)
      as (opk' & Hupd & _ & Hkeep & _).
    exists opk, opk'. split_and!; [done..|]. by apply red_count_mono.
  - intros rounds.
    destruct (ba_simulation_loop_total phi G Hwf rounds opinions [] Htot)
      as (s & final & Hsim & _ & _ & _ & Hred & j & Hj & Hafter).
    by exists s, final, j.
Qed.

Lemma one_way_minority_non_decreasing_witness :
  (∀ k, ∃ opk opk',
      BA.rounds_after BA.phi pair_graph k pair_opinions = inr opk
      ∧ BA.update BA.phi pair_graph opk = inr opk'
      ∧ (∀ v, opk !! v = Some Red → opk' !! v = Some Red)
      ∧ red_count opk ≤ red_count opk')
  ∧ (∀ rounds, ∃ series final j,
      BA.dynamic_simulation_with BA.phi rounds pair_graph pair_opinions
      = inr (series, final)
      ∧ (j ≤ rounds)%nat
      ∧ BA.rounds_after BA.phi pair_graph j pair_opinions = inr final
      ∧ red_count pair_opinions ≤ red_count final).
Proof.
  apply (one_way_minority_non_decreasing BA.phi pair_graph pair_opinions).
  - apply pair_graph_wf.
  - apply pair_opinions_total.
Defined.

(** C8: on a well-formed graph with [N] nodes and a total labeling, the
    one-way update reaches a fixed point after [k ≤ N] rounds of updates,
    and the simulation under any round cap above [k] stops there, having
    recorded [k + 1] entries; with a threshold that is not negative the
    number of recorded rounds is itself at most [N] (one on the graph
    without nodes). *)
Theorem one_way_fixed_point_within_N phi G opinions :
  graph_wf G → total_on G opinions →
  ∃ k final,
    (k ≤ length (nodes G))%nat
    ∧ ((0 <= phi)%Q → (S k ≤ max 1 (length (nodes G)))%nat)
    ∧ BA.rounds_after phi G k opinions = inr final
    ∧ BA.update phi G final = inr final
    ∧ ∀ rounds, (k < rounds)%nat →
        ∃ series,
          BA.dynamic_simulation_with phi rounds G opinions = inr (series, final)
          ∧ length series = S k.
Proof.
  intros Hwf Htot.
  destruct (ba_first_fixed_point phi G Hwf (blue_nodes G opinions) opinions Htot)
    as (k & final & Hk & Hzero & Hafter & Hfix & Hloop); [done|].
  pose proof (length_filter (λ v, opinions !! v = Some Blue) (nodes G)) as Hle.
  fold (blue_nodes G opinions) in Hle.
  exists k, final. split_and!; [lia | | done | done |].
  - intros Hphi.
    destruct (decide (blue_nodes G opinions = length (nodes G))) as [Hall|Hsome].
    + rewrite Hzero; [lia|]. by apply ba_all_blue_fixed.
    + lia.
  - intros rounds Hr. destruct (Hloop rounds [] Hr) as (s & Hs & Hlen).
    by exists s.
Qed.

Lemma one_way_fixed_point_within_N_witness :
  ∃ k final,
    (k ≤ length (nodes pair_graph))%nat
    ∧ ((0 <= BA.phi)%Q → (S k ≤ max 1 (length (nodes pair_graph)))%nat)
    ∧ BA.rounds_after BA.phi pair_graph k pair_opinions = inr final
    ∧ BA.update BA.phi pair_graph final = inr final
    ∧ ∀ rounds, (k < rounds)%nat →
        ∃ series,
          BA.dynamic_simulation_with BA.phi rounds pair_graph pair_opinions
          = inr (series, final)
          ∧ length series = S k.
Proof.
  apply (one_way_fixed_point_within_N BA.phi pair_graph pair_opinions).
  - apply pair_graph_wf.
  - apply pair_opinions_total.
Defined.

(** ** Reversible majority vote ([experiment.py]) *)

Lemma exp_update_loop_total G opinions vs acc :
  (∀ v, v ∈ vs → is_Some (opinions !! v)) →
  (∀ v, v ∈ vs → ∀ u, u ∈ neighbors G v → is_Some (opinions !! u)) →
  ∃ new_op,
    Experiment.update_loop G opinions vs acc = inr new_op
    ∧ ∀ k, k ∈ vs ∨ is_Some (acc !! k) → is_Some (new_op !! k).
Proof.
  revert acc. induction vs as [|v vs IH]; intros acc Hv Hn;
    cbn [Experiment.update_loop].
  - exists acc. split; [done|]. intros k [Hk|Hk]; [|done].
    by apply elem_of_nil in Hk.
  - destruct (Hv v) as [l Hl]; [left|].
    destruct (red_among_total G opinions v) as [Hr _]; [apply Hn; left|].
    assert (Hstep : ∀ x, ∃ new_op,
      Experiment.update_loop G opinions vs (<[v:=x]> acc) = inr new_op
      ∧ ∀ k, k ∈ v :: vs ∨ is_Some (acc !! k) → is_Some (new_op !! k)).
    { intros x. destruct (IH (<[v:=x]> acc)) as (new_op & -> & Hnew).
      - intros; apply Hv; by right.
      - intros w ?; apply Hn; by right.
      - exists new_op. split; [done|]. intros k Hk. apply Hnew.
        destruct (decide (k = v)) as [->|Hkv].
        + right. rewrite lookup_insert_eq. by eexists.
        + rewrite lookup_insert_ne by done. rewrite elem_of_cons in Hk. tauto. }
    unfold getitem. rewrite Hl. cbn [bind ret].
    destruct (neighbors G v) as [|n ns]; [apply Hstep|].
    rewrite Hr. cbn [bind]. repeat case_decide; apply Hstep.
Qed.

Section Reversible.
Context (G : Graph) (Hwf : graph_wf G).

Lemma exp_update_total opinions :
  total_on G opinions →
  ∃ new_op, Experiment.update G opinions = inr new_op ∧ total_on G new_op.
Proof.
  intros Htot.
  destruct (exp_update_loop_total G opinions (nodes G) ∅) as (new_op & Hupd & Hnew);
    [done | by apply neighbors_labeled |].
  exists new_op. split; [done|]. intros v Hv. apply Hnew. by left.
Qed.

Lemma exp_simulation_loop_total rounds : ∀ opinions series,
  total_on G opinions →
  ∃ s final,
    Experiment.simulation_loop G rounds opinions series
    = inr (series ++ s, final)
    ∧ (length s ≤ rounds)%nat ∧ (1 ≤ rounds → 1 ≤ length s)%nat
    ∧ total_on G final.
Proof.
  induction rounds as [|rounds IH]; intros opinions series Htot; simpl.
  - exists [], opinions. rewrite app_nil_r. split_and!; [done | done | lia | done].
  - rewrite static_total by done. simpl.
    destruct (exp_update_total opinions Htot) as (new_op & -> & Htot'). simpl.
    case_decide.
    + eexists [_], opinions. split_and!; [done | simpl; lia.. | done].
    + destruct (IH new_op
        (series ++ [Z.of_nat (length
           (filter (illusioned G opinions (global_majority opinions))
              (nodes G)))]) Htot') as (s & final & -> & Hlen & _ & Hfin).
      eexists (_ :: s), final. rewrite <- app_assoc.
      split_and!; [done | simpl; lia.. | done].
Qed.

End Reversible.

(** When the loop stops before its last round, the last entry of the series
    is the illusion count of the labeling it returns. *)
Lemma exp_early_stop_count G rounds : ∀ opinions series0 series final,
  Experiment.simulation_loop G rounds opinions series0 = inr (series, final) →
  (length series < length series0 + rounds)%nat →
  ∃ gi, Experiment.static_majority_illusion G final = inr gi
        ∧ last series = Some (Z.of_nat (length gi.2)).
Proof.
  induction rounds as [|rounds IH]; intros opinions series0 series final; simpl.
  - intros [= <- <-] Hlen. lia.
  - intros Hloop Hlen.
    apply bind_inr in Hloop as (gi & Hgi & Hloop).
    apply bind_inr in Hloop as (new_op & Hupd & Hloop).
    case_decide.
    + injection Hloop as <- <-. exists gi. split; [done|]. by rewrite last_snoc.
    + apply IH in Hloop; [done|]. rewrite length_app. simpl. lia.
Qed.

Lemma series_last_and_max (series : list Z) :
  (1 ≤ length series)%nat →
  ∃ x m, getlast series = inr x ∧ py_max series = inr m.
Proof.
  intros Hlen. destruct series as [|y series]; [simpl in Hlen; lia|].
  unfold getlast, py_max.
  destruct (last (y :: series)) as [x|] eqn:Hlast.
  - by eexists _, _.
  - by apply last_None in Hlast.
Qed.

(** C10: on a well-formed graph with a total labeling, [dynamic_simulation]
    of either program returns a series with at least one and at most
    [max_rounds] = 50 entries, so that [seq[-1]] and [max(seq)] of the
    callers are defined. *)
Theorem illusion_series_length G opinions_init :
  graph_wf G → total_on G opinions_init →
  (∃ series final,
      Experiment.dynamic_simulation G opinions_init = inr (series, final)
      ∧ (1 ≤ length series ≤ Experiment.max_rounds)%nat
      ∧ Experiment.max_rounds = 50%nat
      ∧ ∃ x m, getlast series = inr x ∧ py_max series = inr m)
  ∧ (∃ series final,
      BA.dynamic_simulation G opinions_init = inr (series, final)
      ∧ (1 ≤ length series ≤ BA.max_rounds)%nat
      ∧ BA.max_rounds = 50%nat
      ∧ ∃ x m, getlast series = inr x ∧ py_max series = inr m).
Proof.
  intros Hwf Htot. split.
  - destruct (exp_simulation_loop_total G Hwf Experiment.max_rounds
                opinions_init [] Htot) as (s & final & Hsim & Hle & Hge & _).
    assert (1 ≤ length s)%nat by (apply Hge; unfold Experiment.max_rounds; lia).
    exists s, final. split_and!; [done | lia | done | done |].
    by apply series_last_and_max.
  - destruct (ba_simulation_loop_total BA.phi G Hwf BA.max_rounds
                opinions_init [] Htot) as (s & final & Hsim & Hle & Hge & _).
    assert (1 ≤ length s)%nat by (apply Hge; unfold BA.max_rounds; lia).
    exists s, final. split_and!; [done | lia | done | done |].
    by apply series_last_and_max.
Qed.

Lemma illusion_series_length_witness :
  (∃ series final,
      Experiment.dynamic_simulation pair_graph pair_opinions = inr (series, final)
      ∧ (1 ≤ length series ≤ Experiment.max_rounds)%nat
      ∧ Experiment.max_rounds = 50%nat
      ∧ ∃ x m, getlast series = inr x ∧ py_max series = inr m)
  ∧ (∃ series final,
      BA.dynamic_simulation pair_graph pair_opinions = inr (series, final)
      ∧ (1 ≤ length series ≤ BA.max_rounds)%nat
      ∧ BA.max_rounds = 50%nat
      ∧ ∃ x m, getlast series = inr x ∧ py_max series = inr m).
Proof.
  apply (illusion_series_length pair_graph pair_opinions).
  - apply pair_graph_wf.
  - apply pair_opinions_total.
Defined.

(** C4, at a failing input: on the star next to a triangle, with nine nodes
    and fraction 1/8, whatever the iteration order of sets and the draws of
    the sampler, the center is the one influencer and the one [Red] node;
    the vote then swaps center and leaves in every round, the loop runs all
    50 rounds, and the record stores [final = 8], the count taken before the
    last update, while the labeling returned (the initial one again) has 5
    nodes under illusion. *)
Theorem final_count_stale_at_round_cap set_iter sample :
  Experiment.batch_trial set_iter sample star_and_triangle 9 (1 # 8)
  = inr {| Experiment.infl := 1; Experiment.frac := 1 # 8;
           Experiment.static := 5; Experiment.final := 8 |}
  ∧ Experiment.opinions_init set_iter sample star_and_triangle 9
      {[0%nat]} (1 # 8) = inr center_red
  ∧ Experiment.dynamic_simulation star_and_triangle center_red
    = inr (mjoin (replicate 25 [5; 8]), center_red)
  ∧ length (mjoin (replicate 25 [5; 8] : list (list Z)))
    = Experiment.max_rounds
  ∧ getlast (mjoin (replicate 25 [5; 8])) = inr 8
  ∧ Experiment.static_majority_illusion star_and_triangle center_red
    = inr (Blue, [1; 2; 3; 4; 5]%nat).
Proof.
  split_and!; vm_compute; reflexivity.
Qed.

(** ** Ranking the influencers: the stable sort by decreasing degree *)

Section Ranking.
Context (G : Graph).

Lemma insert_desc_perm (x : node) l :
  insert_desc (degree G) x l ≡ₚ x :: l.
Proof.
  induction l as [|y l IH]; simpl; [done|].
  case_decide; [|done]. rewrite IH. apply Permutation_swap.
Qed.

Lemma sorted_desc_perm (l : list node) : sorted_desc (degree G) l ≡ₚ l.
Proof.
  induction l as [|x l IH]; simpl; [done|].
  by rewrite insert_desc_perm, IH.
Qed.

Lemma before_cons x l u w : before l u w → before (x :: l) u w.
Proof. intros (i & j & Hi & Hj & Hij). exists (S i), (S j). simpl. auto with lia. Qed.

Lemma before_head x l w : w ∈ l → before (x :: l) x w.
Proof.
  intros (j & Hj)%list_elem_of_lookup. exists 0%nat, (S j). simpl.
  auto with lia.
Qed.

Lemma ranking_weaken x l ranked :
  StronglySorted (by_degree_then_position G l) ranked →
  StronglySorted (by_degree_then_position G (x :: l)) ranked.
Proof.
  induction 1 as [|y ranked _ IH Hall]; constructor; [done|].
  eapply Forall_impl; [done|]. intros z [?|[? ?]]; [by left|].
  right. split; [done|]. by apply before_cons.
Qed.

Lemma insert_desc_sorted x l0 ranked :
  (∀ y, y ∈ ranked → y ∈ l0) →
  StronglySorted (by_degree_then_position G (x :: l0)) ranked →
  StronglySorted (by_degree_then_position G (x :: l0))
    (insert_desc (degree G) x ranked).
Proof.
  intros Hsub Hsorted.
  induction Hsorted as [|y ranked Hsorted IH Hall]; simpl.
  - repeat constructor.
  - case_decide as Hlt.
    + constructor.
      * apply IH. intros; apply Hsub; by right.
      * rewrite insert_desc_perm. constructor; [left; lia | done].
    + constructor; [by constructor|].
      assert (Hy : by_degree_then_position G (x :: l0) x y).
      { unfold by_degree_then_position.
        destruct (decide (degree G x = degree G y)); [right|left; lia].
        split; [done|]. apply before_head, Hsub. by left. }
      constructor; [done|].
      apply Forall_forall. intros z Hz.
      rewrite Forall_forall in Hall. specialize (Hall z Hz).
      unfold by_degree_then_position in *.
      destruct (decide (degree G x = degree G z)); [right|left].
      * split; [done|]. apply before_head, Hsub. by right.
      * destruct Hall as [?|[? _]]; lia.
Qed.

(** The ranking is sorted by decreasing degree, equal degrees in the
    order of the list that was sorted. *)
Lemma sorted_desc_sorted (l : list node) :
  StronglySorted (by_degree_then_position G l) (sorted_desc (degree G) l).
Proof.
  induction l as [|x l IH]; simpl; [constructor|].
  apply insert_desc_sorted.
  - intros y. by rewrite sorted_desc_perm.
  - by apply ranking_weaken.
Qed.

End Ranking.

(** The first [t] entries of a list without repetition, as a set. *)
Lemma take_set_facts (l : list node) (t : nat) :
  NoDup l → (t ≤ length l)%nat →
  size (list_to_set (take t l) : gset node) = t
  ∧ ∀ w, w ∈ l → w ∉ (list_to_set (take t l) : gset node) → w ∈ drop t l.
Proof.
  intros Hnd Ht. split.
  - rewrite size_list_to_set.
    + rewrite length_take. lia.
    + eapply sublist_NoDup; [done | apply sublist_take].
  - intros w Hw Hnot. rewrite <- (take_drop t l) in Hw.
    apply elem_of_app in Hw as [Hw|Hw]; [|done].
    exfalso. apply Hnot. by apply elem_of_list_to_set.
Qed.

Lemma before_asym (l : list node) u w :
  NoDup l → before l u w → before l w u → False.
Proof.
  intros Hnd (i & j & Hi & Hj & Hij) (i' & j' & Hi' & Hj' & Hij').
  pose proof (NoDup_lookup _ _ _ _ Hnd Hi Hj').
  pose proof (NoDup_lookup _ _ _ _ Hnd Hj Hi'). lia.
Qed.

(** For an order in which no two nodes rank above each other, the top
    [target] is one set. *)
Lemma top_of_unique (R : node → node → Prop) influencers target S S' :
  (∀ u w, R u w → R w u → False) →
  top_of R influencers target S → top_of R influencers target S' → S' = S.
Proof.
  intros Hasym (Hsub & Hsize & Htop) (Hsub' & Hsize' & Htop').
  destruct (decide (S ⊆ S')) as [Hincl|Hnot].
  - symmetry. apply set_subseteq_size_eq; [done|lia].
  - exfalso.
    assert (∃ u, u ∈ S ∧ u ∉ S') as (u & Hu & Hu').
    { destruct (set_choose_or_empty (S ∖ S')) as [[u Hu]|Hempty].
      - exists u. set_solver.
      - exfalso. apply Hnot. set_solver. }
    assert (∃ w, w ∈ S' ∧ w ∉ S) as (w & Hw & Hw').
    { destruct (set_choose_or_empty (S' ∖ S)) as [[w Hw]|Hempty].
      - exists w. set_solver.
      - exfalso. assert (S' ⊆ S) as Hincl by set_solver.
        assert (S' ≡ S) by (apply set_subseteq_size_equiv; [done|lia]).
        set_solver. }
    apply (Hasym u w); [apply Htop | apply Htop']; auto.
Qed.

Lemma slot_iter_ok : set_iter_ok slot_iter.
Proof. intros s. apply merge_sort_Permutation. Qed.

Lemma first_k_ok : sample_ok first_k.
Proof.
  intros population k Hk. unfold first_k. split.
  - apply sublist_submseteq, sublist_take.
  - rewrite length_take. lia.
Qed.

Lemma elements_ok : set_iter_ok elements.
Proof. by intros s. Qed.

(** C5, as stated, fails: in the graph of three hubs the influencers are
    1, 8 and 10, all of degree 4; for the target 1 and a set walked in slot
    order (8, 1, 10) the code keeps 8, which is the top by degree and node
    identifier under neither direction of the identifier order. *)
Lemma capped_minority_ignores_node_id :
  set_iter_ok slot_iter
  ∧ Experiment.identify_influencers_by_threshold three_hubs
    = inr ({[1; 8; 10]} : gset node)%nat
  ∧ Experiment.target_count (1 # 16) 16 = 1
  ∧ Z.of_nat (size ({[1; 8; 10]} : gset node)%nat) > 1
  ∧ Experiment.minority_set slot_iter first_k three_hubs {[1; 8; 10]}%nat 1
    = inr ({[8]} : gset node)%nat
  ∧ ¬ top_of (by_degree_then_id_up three_hubs) {[1; 8; 10]}%nat 1 {[8]}%nat
  ∧ ¬ top_of (by_degree_then_id_down three_hubs) {[1; 8; 10]}%nat 1 {[8]}%nat.
Proof.
  split_and!; [apply slot_iter_ok | by vm_compute.. | |].
  - intros (_ & _ & Htop).
    destruct (Htop 8%nat 1%nat) as [Hd|[_ Hid]]; [set_solver.. | |lia].
    vm_compute in Hd. discriminate.
  - intros (_ & _ & Htop).
    destruct (Htop 8%nat 10%nat) as [Hd|[_ Hid]]; [set_solver.. | |lia].
    vm_compute in Hd. discriminate.
Qed.

(** C5, amended: whenever the influencer count exceeds a target that is not
    negative, the Minority set is the first [target] influencers of the
    ranking by degree descending in which influencers of equal degree keep
    the order in which the influencer set is iterated; it is the one top
    [target] for that order. No node identifier enters the ranking. *)
Theorem capped_minority_top_by_degree_then_iteration
    set_iter sample G influencers target :
  set_iter_ok set_iter →
  0 ≤ target → Z.of_nat (size influencers) > target →
  ∃ S,
    Experiment.minority_set set_iter sample G influencers target = inr S
    ∧ S = list_to_set
            (take (Z.to_nat target) (Experiment.sorted_infl set_iter G influencers))
    ∧ top_of (by_degree_then_position G (set_iter influencers))
        influencers target S
    ∧ ∀ S', top_of (by_degree_then_position G (set_iter influencers))
              influencers target S' → S' = S.
Proof.
  intros Hiter Htarget Hcap. unfold Experiment.minority_set.
  rewrite decide_True by done. unfold slice_to. rewrite decide_True by done.
  eexists. split; [done|]. split; [done|].
  set (ranked := Experiment.sorted_infl set_iter G influencers).
  assert (Hperm : ranked ≡ₚ elements influencers).
  { unfold ranked, Experiment.sorted_infl. by rewrite sorted_desc_perm. }
  assert (Hnd : NoDup ranked) by (rewrite Hperm; apply NoDup_elements).
  assert (Hlen : length ranked = size influencers) by by rewrite Hperm.
  assert (Hin : ∀ x, x ∈ ranked ↔ x ∈ influencers).
  { intros x. by rewrite Hperm, elem_of_elements. }
  destruct (take_set_facts ranked (Z.to_nat target) Hnd) as [Hsize Hdrop]; [lia|].
  assert (Htop : top_of (by_degree_then_position G (set_iter influencers))
                   influencers target (list_to_set (take (Z.to_nat target) ranked))).
  { split_and!.
    - intros x Hx%elem_of_list_to_set. apply Hin.
      by eapply elem_of_sublist; [|apply sublist_take].
    - rewrite Hsize. lia.
    - intros u w Hu%elem_of_list_to_set Hw Hnot.
      apply (StronglySorted_app_1_elem_of _
               (take (Z.to_nat target) ranked) (drop (Z.to_nat target) ranked));
        [|done|].
      + rewrite take_drop. apply sorted_desc_sorted.
      + apply Hdrop; [by apply Hin | done]. }
  split; [done|]. intros S' HS'.
  eapply top_of_unique; [|exact Htop|exact HS'].
  intros u w [Huw|[Heq Hb]] [Hwu|[Heq' Hb']]; try lia.
  eapply before_asym; [|exact Hb|exact Hb'].
  rewrite (Hiter influencers). apply NoDup_elements.
Qed.

Lemma capped_minority_top_by_degree_then_iteration_witness :
  ∃ S,
    Experiment.minority_set slot_iter first_k three_hubs {[1; 8; 10]}%nat 1
    = inr S
    ∧ S = list_to_set
            (take (Z.to_nat 1)
               (Experiment.sorted_infl slot_iter three_hubs {[1; 8; 10]}%nat))
    ∧ top_of (by_degree_then_position three_hubs (slot_iter {[1; 8; 10]}%nat))
        {[1; 8; 10]}%nat 1 S
    ∧ ∀ S', top_of (by_degree_then_position three_hubs
                      (slot_iter {[1; 8; 10]}%nat))
              {[1; 8; 10]}%nat 1 S' → S' = S.
Proof.
  apply (capped_minority_top_by_degree_then_iteration
           slot_iter first_k three_hubs {[1; 8; 10]}%nat 1).
  - apply slot_iter_ok.
  - lia.
  - vm_compute. reflexivity.
Defined.

(** ** The number of Minority labels of the initial labeling *)

(** *** Rounding to binary64 *)

Lemma floor_log2_lower (p q : Z) :
  0 < p → 0 < q →
  if 0 <=? floor_log2 p q then q * 2 ^ floor_log2 p q ≤ p
  else q ≤ p * 2 ^ (- floor_log2 p q).
Proof.
  intros Hp Hq. unfold floor_log2.
  set (l := Z.log2 p - Z.log2 q).
  destruct (Z.log2_spec p Hp) as [Hpl Hpu].
  destruct (Z.log2_spec q Hq) as [Hql Hqu].
  pose proof (Z.log2_nonneg p). pose proof (Z.log2_nonneg q).
  destruct (if 0 <=? l then q * 2 ^ l <=? p else q <=? p * 2 ^ (- l)) eqn:Htest.
  - destruct (0 <=? l); lia.
  - destruct (Z.leb_spec 0 (l - 1)) as [Hl|Hl].
    + assert (Heq : Z.log2 p = Z.log2 q + 1 + (l - 1)) by lia.
      rewrite Heq, Z.pow_add_r in Hpl by lia.
      rewrite Z.pow_succ_r in Hqu by lia.
      replace (Z.log2 q + 1) with (Z.succ (Z.log2 q)) in Hpl by lia.
      rewrite Z.pow_succ_r in Hpl by lia.
      assert (0 < 2 ^ (l - 1)) by (apply Z.pow_pos_nonneg; lia). nia.
    + assert (Heq : Z.succ (Z.log2 q) = Z.log2 p + (- (l - 1))) by lia.
      rewrite Heq, Z.pow_add_r in Hqu by lia.
      assert (0 < 2 ^ (- (l - 1))) by (apply Z.pow_pos_nonneg; lia). nia.
Qed.

Lemma round_half_even_le (n d C : Z) :
  0 < d → n ≤ C * d → round_half_even n d ≤ C.
Proof.
  intros Hd Hn. unfold round_half_even.
  pose proof (Z.div_mod n d ltac:(lia)) as Hdm.
  pose proof (Z.mod_pos_bound n d Hd) as Hr.
  assert (n / d ≤ C) by (apply Z.div_le_upper_bound; lia).
  assert (0 < n mod d → n / d + 1 ≤ C) by nia.
  repeat match goal with |- context [if ?b then _ else _] =>
    destruct b eqn:? end; lia.
Qed.

Lemma round_half_even_nonneg (n d : Z) :
  0 ≤ n → 0 < d → 0 ≤ round_half_even n d.
Proof.
  intros Hn Hd. unfold round_half_even.
  assert (0 ≤ n / d) by (apply Z.div_pos; lia).
  repeat match goal with |- context [if ?b then _ else _] =>
    destruct b eqn:? end; lia.
Qed.

Lemma round_half_even_unit (n : Z) : round_half_even n 1 = n.
Proof.
  unfold round_half_even. rewrite Z.mod_1_r, Z.div_1_r. reflexivity.
Qed.

Lemma pow2_pos (j : Z) : 0 ≤ j → Z.pos (Z.to_pos (2 ^ j)) = 2 ^ j ∧ 0 < 2 ^ j.
Proof.
  intros Hj. assert (0 < 2 ^ j) by (apply Z.pow_pos_nonneg; lia).
  split; [by apply Z2Pos.id | done].
Qed.

Lemma exponent_bound (p q K j : Z) :
  0 < p → 0 < q → 0 ≤ j → K < 2 ^ 53 → p * 2 ^ j ≤ K * q →
  floor_log2 p q - 52 ≤ - j.
Proof.
  intros Hp Hq Hj HK Hle.
  pose proof (floor_log2_lower p q Hp Hq) as Hlow.
  set (fl := floor_log2 p q) in *.
  destruct (Z.le_gt_cases (fl - 52) (- j)) as [|Hgt]; [done|exfalso].
  assert (0 < 2 ^ j) by (apply Z.pow_pos_nonneg; lia).
  destruct (Z.leb_spec 0 fl) as [Hfl|Hfl].
  - assert (2 ^ 53 ≤ 2 ^ (fl + j)) by (apply Z.pow_le_mono_r; lia).
    rewrite Z.pow_add_r in * by lia.
    assert (0 < 2 ^ fl) by (apply Z.pow_pos_nonneg; lia). nia.
  - assert (2 ^ (53 + - fl) ≤ 2 ^ j) by (apply Z.pow_le_mono_r; lia).
    rewrite Z.pow_add_r in * by lia.
    assert (0 < 2 ^ (- fl)) by (apply Z.pow_pos_nonneg; lia). nia.
Qed.

Lemma b64_round_nonneg (x : Q) : (0 <= x)%Q → (0 <= b64_round x)%Q.
Proof.
  intros Hx. assert (Hn : 0 ≤ Qnum x) by (unfold Qle in Hx; simpl in Hx; lia).
  unfold b64_round. rewrite Z.abs_eq by done.
  destruct (Qnum x =? 0) eqn:Hz; [done|]. apply Z.eqb_neq in Hz.
  rewrite Qred_correct. rewrite Z.sgn_pos by lia.
  set (e := floor_log2 (Qnum x) (Z.pos (Qden x)) - 52).
  destruct (Z.leb_spec 0 e) as [He|He].
  - assert (0 < 2 ^ e) by (apply Z.pow_pos_nonneg; lia).
    pose proof (round_half_even_nonneg (Qnum x) (Z.pos (Qden x) * 2 ^ e)).
    unfold Qle, Qmult, inject_Z. cbn [Qnum Qden]. nia.
  - assert (0 < 2 ^ (- e)) by (apply Z.pow_pos_nonneg; lia).
    pose proof (round_half_even_nonneg (Qnum x * 2 ^ (- e)) (Z.pos (Qden x))).
    unfold Qle, Qmult, inject_Z. cbn [Qnum Qden]. nia.
Qed.

Lemma b64_round_le (x : Q) (K j : Z) :
  (0 <= x)%Q → 0 ≤ j → K < 2 ^ 53 →
  (x <= K # Z.to_pos (2 ^ j))%Q →
  (b64_round x <= K # Z.to_pos (2 ^ j))%Q.
Proof.
  intros Hx Hj HK Hle.
  assert (Hn : 0 ≤ Qnum x) by (unfold Qle in Hx; simpl in Hx; lia).
  destruct (pow2_pos j Hj) as [Hpos Hpow].
  unfold Qle in Hle. cbn [Qnum Qden] in Hle. rewrite Hpos in Hle.
  unfold b64_round. rewrite Z.abs_eq by done.
  destruct (Qnum x =? 0) eqn:Hz.
  { apply Z.eqb_eq in Hz. unfold Qle. cbn [Qnum Qden]. rewrite Hz in Hle. nia. }
  apply Z.eqb_neq in Hz. rewrite Qred_correct, Z.sgn_pos by lia.
  pose proof (exponent_bound (Qnum x) (Z.pos (Qden x)) K j
                ltac:(lia) ltac:(lia) Hj HK Hle) as He.
  set (e := floor_log2 (Qnum x) (Z.pos (Qden x)) - 52) in *.
  destruct (Z.leb_spec 0 e) as [He0|He0].
  - assert (e = 0) by lia. assert (j = 0) by lia. subst j.
    replace e with 0 by done. change (2 ^ 0) with 1 in *.
    rewrite Z.mul_1_r in *.
    pose proof (round_half_even_le (Qnum x) (Z.pos (Qden x)) K
                  ltac:(lia) ltac:(lia)).
    unfold Qle, Qmult, inject_Z. cbn [Qnum Qden]. lia.
  - assert (Hk : 0 < 2 ^ (- e)) by (apply Z.pow_pos_nonneg; lia).
    assert (Hsplit : 2 ^ (- e) = 2 ^ j * 2 ^ (- e - j)).
    { rewrite <- Z.pow_add_r by lia. f_equal. lia. }
    assert (0 < 2 ^ (- e - j)) by (apply Z.pow_pos_nonneg; lia).
    pose proof (round_half_even_le (Qnum x * 2 ^ (- e)) (Z.pos (Qden x))
                  (K * 2 ^ (- e - j)) ltac:(lia)) as Hm.
    unfold Qle, Qmult, inject_Z. cbn [Qnum Qden].
    rewrite Pos.mul_1_l, Hpos, (Z2Pos.id _ Hk).
    assert (round_half_even (Qnum x * 2 ^ (- e)) (Z.pos (Qden x))
            ≤ K * 2 ^ (- e - j)) by (apply Hm; rewrite Hsplit; nia).
    rewrite Hsplit at 2. nia.
Qed.

Lemma float_of_int_exact (n : Z) :
  0 ≤ n < 2 ^ 53 → float_of_int n = inject_Z n.
Proof.
  intros [Hn0 Hn]. unfold float_of_int, b64_round.
  cbn [inject_Z Qnum Qden]. rewrite Z.abs_eq by done.
  destruct (n =? 0) eqn:Hz; [apply Z.eqb_eq in Hz; by subst|].
  apply Z.eqb_neq in Hz. rewrite Z.sgn_pos by lia.
  pose proof (exponent_bound n 1 n 0 ltac:(lia) ltac:(lia) ltac:(lia) Hn
                ltac:(simpl; lia)) as He.
  set (e := floor_log2 n 1 - 52) in *.
  transitivity (Qred (inject_Z n));
    [|apply Qred_identity; simpl; apply Z.gcd_1_r].
  apply Qred_complete.
  destruct (Z.leb_spec 0 e) as [He0|He0].
  - replace e with 0 by lia. change (2 ^ 0) with 1.
    rewrite Z.mul_1_r, round_half_even_unit.
    unfold Qeq, Qmult, inject_Z. cbn [Qnum Qden]. lia.
  - assert (Hk : 0 < 2 ^ (- e)) by (apply Z.pow_pos_nonneg; lia).
    rewrite round_half_even_unit.
    unfold Qeq, Qmult, inject_Z. cbn [Qnum Qden].
    rewrite Pos.mul_1_l, (Z2Pos.id _ Hk). lia.
Qed.

Lemma int_le (y : Q) (K j : Z) :
  (0 <= y)%Q → 0 ≤ j → (y <= K # Z.to_pos (2 ^ j))%Q →
  0 ≤ int y ≤ K / 2 ^ j.
Proof.
  intros Hy Hj Hle. destruct (pow2_pos j Hj) as [Hpos Hpow].
  assert (Hn : 0 ≤ Qnum y) by (unfold Qle in Hy; simpl in Hy; lia).
  unfold Qle in Hle. cbn [Qnum Qden] in Hle. rewrite Hpos in Hle.
  unfold int. rewrite Z.quot_div_nonneg by lia.
  pose proof (Z.mul_div_le (Qnum y) (Z.pos (Qden y)) ltac:(lia)).
  split; [apply Z.div_pos; lia|].
  apply Z.div_le_lower_bound; [done|].
  assert (0 ≤ Qnum y / Z.pos (Qden y)) by (apply Z.div_pos; lia). nia.
Qed.

(** The products of the code's own fractions and small node counts: the
    rounded product of 0.3 and 10 is 3, that of 0.29 and 100 lies below 29,
    and that of 0.3 and 1000 is 300. *)
Lemma target_count_examples :
  Experiment.target_count (b64_round (3 # 10)) 10 = 3
  ∧ Experiment.target_count (b64_round (29 # 100)) 100 = 28
  ∧ (λ frac, Experiment.target_count frac 1000) <$> Experiment.minority_fracs
    = [100; 300; 400].
Proof. split_and!; vm_compute; reflexivity. Qed.

(** For a fraction in [0, 1] and a node count that is a float as it stands,
    the target lies between 0 and the node count: rounding is monotone and
    the node count is a float. *)
Lemma target_count_bounds (frac : Q) (N : Z) :
  (0 <= frac)%Q → (frac <= 1)%Q → 0 ≤ N < 2 ^ 53 →
  0 ≤ Experiment.target_count frac N ≤ N.
Proof.
  intros H0 H1 HN. unfold Experiment.target_count, float_mul.
  rewrite float_of_int_exact by done.
  assert (Hx : (0 <= frac * inject_Z N)%Q).
  { apply Qmult_le_0_compat; [done|]. unfold Qle. simpl. lia. }
  assert (Hle : (frac * inject_Z N <= N # Z.to_pos (2 ^ 0))%Q).
  { unfold Qle in *. simpl in *. nia. }
  pose proof (int_le _ N 0 (b64_round_nonneg _ Hx) ltac:(lia)
                (b64_round_le _ N 0 Hx ltac:(lia) ltac:(lia) Hle)) as Hb.
  change (2 ^ 0) with 1 in Hb. rewrite Z.div_1_r in Hb. done.
Qed.

(** Beyond [2^53] the node count is itself rounded, and the target of the
    fraction 1 can exceed it. *)
Lemma target_count_beyond_exact_integers :
  Experiment.target_count 1 (2 ^ 53 + 3) = 2 ^ 53 + 4.
Proof. vm_compute. reflexivity. Qed.

Lemma opinions_of_lookup G S v :
  opinions_of G S !! v
  = if decide (v ∈ nodes G) then Some (if decide (v ∈ S) then Red else Blue)
    else None.
Proof.
  unfold opinions_of. case_decide as Hv.
  - apply elem_of_list_to_map_1'.
    + intros y (w & [= -> ->] & _)%list_elem_of_fmap. done.
    + apply list_elem_of_fmap. by exists v.
  - apply not_elem_of_list_to_map_1. rewrite <- list_fmap_compose.
    intros (w & -> & Hw)%list_elem_of_fmap. done.
Qed.

Lemma opinions_of_total G S : total_on G (opinions_of G S).
Proof.
  intros v Hv. rewrite opinions_of_lookup, decide_True by done. by eexists.
Qed.

Lemma red_count_opinions_of G (S : gset node) :
  NoDup (nodes G) → S ⊆ list_to_set (nodes G) →
  red_count (opinions_of G S) = Z.of_nat (size S).
Proof.
  intros Hnd Hsub. unfold red_count, values, opinions_of. f_equal.
  rewrite map_to_list_to_map by (by rewrite <- list_fmap_compose, list_fmap_id).
  rewrite <- list_fmap_compose.
  transitivity (length (filter (λ v, v ∈ S) (nodes G))).
  - clear. induction (nodes G) as [|v l IH]; [done|].
    rewrite fmap_cons, !filter_cons. simpl.
    repeat case_decide; simpl; congruence.
  - unfold size, set_size. simpl. apply Permutation_length.
    apply NoDup_Permutation; [by apply NoDup_filter | apply NoDup_elements |].
    intros v. rewrite list_elem_of_filter, elem_of_elements.
    split; [tauto|]. intros Hv. split; [done|].
    specialize (Hsub v Hv). by apply elem_of_list_to_set in Hsub.
Qed.

(** The ranking lists every influencer once. *)
Lemma ranking_facts set_iter G (influencers : gset node) :
  set_iter_ok set_iter →
  NoDup (Experiment.sorted_infl set_iter G influencers)
  ∧ length (Experiment.sorted_infl set_iter G influencers) = size influencers
  ∧ ∀ x, x ∈ Experiment.sorted_infl set_iter G influencers ↔ x ∈ influencers.
Proof.
  intros Hiter.
  assert (Hperm : Experiment.sorted_infl set_iter G influencers
                  ≡ₚ elements influencers).
  { unfold Experiment.sorted_infl. by rewrite sorted_desc_perm. }
  split_and!.
  - rewrite Hperm. apply NoDup_elements.
  - by rewrite Hperm.
  - intros x. by rewrite Hperm, elem_of_elements.
Qed.

(** The influencers are nodes of the graph. *)
Lemma identify_subset G influencers :
  Experiment.identify_influencers_by_threshold G = inr influencers →
  influencers ⊆ list_to_set (nodes G).
Proof.
  unfold Experiment.identify_influencers_by_threshold.
  case_decide; [discriminate|]. intros [= <-] v Hv.
  apply elem_of_list_to_set in Hv. apply list_elem_of_filter in Hv as [_ Hv].
  by apply elem_of_list_to_set.
Qed.

Section Assignment.
Context (set_iter : gset node → list node)
        (sample : list node → nat → list node)
        (Hiter : set_iter_ok set_iter) (Hsample : sample_ok sample)
        (G : Graph) (Hwf : graph_wf G).

(** The cap-or-fill block returns a set of [target] nodes of the graph. *)
Lemma minority_set_size (influencers : gset node) (target : Z) :
  influencers ⊆ list_to_set (nodes G) →
  0 ≤ target ≤ number_of_nodes G →
  ∃ S : gset node,
    Experiment.minority_set set_iter sample G influencers target = inr S
    ∧ S ⊆ list_to_set (nodes G)
    ∧ Z.of_nat (size S) = target.
Proof.
  intros Hsub Htarget. destruct Hwf as [Hnd _].
  destruct (decide (Z.of_nat (size influencers) > target)) as [Hcap|Hfill].
  - unfold Experiment.minority_set. rewrite decide_True by done.
    unfold slice_to. rewrite decide_True by lia.
    destruct (ranking_facts set_iter G influencers Hiter) as (Hrnd & Hrlen & Hrin).
    destruct (take_set_facts _ (Z.to_nat target) Hrnd) as [Hsize _]; [lia|].
    eexists. split_and!; [done | | rewrite Hsize; lia].
    intros x Hx%elem_of_list_to_set. apply Hsub, Hrin.
    by eapply elem_of_sublist; [|apply sublist_take].
  - unfold Experiment.minority_set. rewrite decide_False by done.
    case_decide as Hextra; [|exists influencers; split_and!; [done..|lia]].
    set (rest := set_iter (list_to_set (nodes G) ∖ influencers)).
    assert (Hrest : rest ≡ₚ elements
              (list_to_set (nodes G) ∖ influencers : gset node))
      by apply Hiter.
    assert (Hlen : length rest = (length (nodes G) - size influencers)%nat).
    { rewrite Hrest. change (length (elements ?X)) with (size X).
      rewrite size_difference by done. by rewrite size_list_to_set. }
    pose proof (subseteq_size _ _ Hsub) as Hle.
    rewrite size_list_to_set in Hle by done.
    unfold number_of_nodes in Htarget.
    unfold Experiment.random_sample. rewrite decide_True by lia.
    cbn [bind ret].
    destruct (Hsample rest
      (Z.to_nat (target - Z.of_nat (size influencers)))) as [Hdrawn Hk]; [lia|].
    set (drawn := sample rest _) in *.
    assert (Hnd' : NoDup drawn).
    { apply submseteq_Permutation in Hdrawn as [k Hperm].
      assert (NoDup (drawn ++ k)) as Happ
        by (rewrite <- Hperm, Hrest; apply NoDup_elements).
      by apply NoDup_app in Happ as [? _]. }
    assert (Hin : ∀ x, x ∈ drawn → x ∈ nodes G ∧ x ∉ influencers).
    { intros x Hx. eapply elem_of_submseteq in Hx; [|done].
      rewrite Hrest, elem_of_elements, elem_of_difference in Hx.
      by rewrite elem_of_list_to_set in Hx. }
    eexists. split_and!; [done | |].
    + intros x [Hx|Hx%elem_of_list_to_set]%elem_of_union; [by apply Hsub|].
      apply elem_of_list_to_set. by apply Hin.
    + rewrite size_union.
      * rewrite size_list_to_set by done. lia.
      * intros x Hx Hx'%elem_of_list_to_set. apply Hin in Hx' as [_ Hx'].
        done.
Qed.

End Assignment.

(** C3, as stated, fails: on four isolated nodes with fraction 7/16 there
    are no influencers, the target is [int(1.75) = 1], and the labeling has
    one [Red] node, while [round(1.75) = 2]. *)
Lemma truncated_not_rounded_target :
  set_iter_ok elements ∧ sample_ok first_k
  ∧ (0 <= 7 # 16)%Q ∧ (7 # 16 <= 1)%Q
  ∧ number_of_nodes isolated4 = 4
  ∧ Experiment.identify_influencers_by_threshold isolated4 = inr ∅
  ∧ py_round ((7 # 16) * inject_Z 4) = 2
  ∧ ∃ opinions,
      Experiment.opinions_init elements first_k isolated4 4 ∅ (7 # 16)
      = inr opinions
      ∧ red_count opinions = 1
      ∧ red_count opinions ≠ py_round ((7 # 16) * inject_Z 4).
Proof.
  split_and!; [apply elements_ok | apply first_k_ok | by vm_compute..|].
  exists (opinions_of isolated4 {[2%nat]}).
  split_and!; vm_compute; [reflexivity.. | discriminate].
Qed.

(** C3, amended: for every well-formed graph with node set V of fewer than
    [2^53] nodes, every influencer set within V and every target fraction in
    [0, 1], the initial labeling is total and has exactly
    [int(target_fraction * |V|)] Minority-labeled nodes, the product being
    the float product of the code, rounded to binary64 and then truncated
    toward zero, whether the influencer count is above, equal to or below
    that target. *)
Theorem minority_count_is_truncated_target
    set_iter sample G N influencers frac :
  set_iter_ok set_iter → sample_ok sample →
  graph_wf G → number_of_nodes G = N → N < 2 ^ 53 →
  influencers ⊆ list_to_set (nodes G) →
  (0 <= frac)%Q → (frac <= 1)%Q →
  ∃ opinions,
    Experiment.opinions_init set_iter sample G N influencers frac = inr opinions
    ∧ total_on G opinions
    ∧ red_count opinions = int (float_mul frac (float_of_int N)).
Proof.
  intros Hiter Hsample Hwf HN Hlt Hsub H0 H1.
  assert (0 ≤ N) by (rewrite <- HN; unfold number_of_nodes; lia).
  pose proof (target_count_bounds frac N H0 H1 ltac:(lia)) as Hb.
  unfold Experiment.opinions_init.
  destruct (minority_set_size set_iter sample Hiter Hsample G Hwf influencers
              (Experiment.target_count frac N) Hsub) as (S & -> & HS & Hsize);
    [rewrite HN; lia|].
  cbn [bind ret]. eexists. split_and!; [done | apply opinions_of_total |].
  rewrite red_count_opinions_of; [done | apply Hwf | done].
Qed.

Lemma minority_count_is_truncated_target_witness :
  ∃ opinions,
    Experiment.opinions_init slot_iter first_k three_hubs 16
      {[1; 8; 10]}%nat (1 # 16) = inr opinions
    ∧ total_on three_hubs opinions
    ∧ red_count opinions = int (float_mul (1 # 16) (float_of_int 16)).
Proof.
  apply (minority_count_is_truncated_target
           slot_iter first_k three_hubs 16 {[1; 8; 10]}%nat (1 # 16)).
  - apply slot_iter_ok.
  - apply first_k_ok.
  - apply three_hubs_wf.
  - reflexivity.
  - by vm_compute.
  - apply (bool_decide_unpack _). by vm_compute.
  - by vm_compute.
  - by vm_compute.
Defined.

(** * Further properties of the engine *)

(** ** The influencer selector *)

Lemma threshold_cross (S n d : Z) :
  0 < n →
  (2 * (inject_Z S / inject_Z n) < inject_Z d)%Q ↔ 2 * S < d * n.
Proof.
  intros Hn. destruct n as [|p|p]; try lia.
  unfold Qlt, Qdiv, Qmult, Qinv, inject_Z. simpl.
  by rewrite !Pos.mul_1_l, !Z.mul_1_r.
Qed.

Lemma degree_nonneg G v : 0 ≤ degree G v.
Proof. unfold degree. case_decide; lia. Qed.

Lemma degree_sum_filter_le G (P : node → Prop) `{!∀ v, Decision (P v)} l :
  0 ≤ foldr Z.add 0 (degree G <$> filter P l)
  ≤ foldr Z.add 0 (degree G <$> l).
Proof.
  induction l as [|v l IH]; [simpl; lia|].
  rewrite filter_cons. pose proof (degree_nonneg G v).
  case_decide; rewrite ?fmap_cons; cbn [foldr]; lia.
Qed.

Lemma degree_sum_lower G (c n : Z) l :
  (∀ v, v ∈ l → c < degree G v * n) →
  (c + 1) * Z.of_nat (length l) ≤ n * foldr Z.add 0 (degree G <$> l).
Proof.
  induction l as [|v l IH]; intros Hall; [simpl; lia|].
  assert (c < degree G v * n) by (apply Hall; left).
  assert ((c + 1) * Z.of_nat (length l) ≤ n * foldr Z.add 0 (degree G <$> l))
    by (apply IH; intros; apply Hall; by right).
  rewrite fmap_cons. cbn [foldr length]. lia.
Qed.

(** X1: on a graph with at least one node the selector of either program
    returns exactly the nodes [v] with [degree(v) × n > 2 × (sum of all
    degrees)], [n] the number of nodes: the float test [d > 2 * avg_deg]
    read over the integers. *)
Theorem identify_exact G :
  number_of_nodes G ≠ 0 →
  ∃ influencers,
    Experiment.identify_influencers_by_threshold G = inr influencers
    ∧ BA.identify_influencers_by_threshold G = inr influencers
    ∧ ∀ v, v ∈ influencers ↔
           v ∈ nodes G ∧ 2 * degree_sum G < degree G v * number_of_nodes G.
Proof.
  intros Hn. unfold Experiment.identify_influencers_by_threshold,
    BA.identify_influencers_by_threshold.
  rewrite !decide_False by done. eexists. split_and!; [done..|].
  intros v. rewrite elem_of_list_to_set, list_elem_of_filter.
  rewrite threshold_cross by (unfold number_of_nodes in *; lia). tauto.
Qed.

Lemma identify_exact_witness :
  ∃ influencers,
    Experiment.identify_influencers_by_threshold three_hubs = inr influencers
    ∧ BA.identify_influencers_by_threshold three_hubs = inr influencers
    ∧ ∀ v, v ∈ influencers ↔
           v ∈ nodes three_hubs
           ∧ 2 * degree_sum three_hubs
             < degree three_hubs v * number_of_nodes three_hubs.
Proof. apply (identify_exact three_hubs). by vm_compute. Defined.

Lemma influencers_size_bound G influencers :
  NoDup (nodes G) →
  Experiment.identify_influencers_by_threshold G = inr influencers →
  2 * Z.of_nat (size influencers) < number_of_nodes G.
Proof.
  intros Hnd. unfold Experiment.identify_influencers_by_threshold.
  case_decide as Hn; [discriminate|]. intros [= <-].
  rewrite size_list_to_set by by apply NoDup_filter.
  set (P := λ v, (2 * (inject_Z (degree_sum G) / inject_Z (number_of_nodes G))
                  < inject_Z (degree G v))%Q).
  assert (Hpos : 0 < number_of_nodes G) by (unfold number_of_nodes in *; lia).
  pose proof (degree_sum_filter_le G P (nodes G)) as Hle.
  pose proof (degree_sum_lower G (2 * degree_sum G) (number_of_nodes G)
                (filter P (nodes G))) as Hlow.
  fold (degree_sum G) in Hle.
  assert (Hlow' : (2 * degree_sum G + 1) * Z.of_nat (length (filter P (nodes G)))
                  ≤ number_of_nodes G
                    * foldr Z.add 0 (degree G <$> filter P (nodes G))).
  { apply Hlow. intros v [Hv _]%list_elem_of_filter.
    unfold P in Hv. by apply threshold_cross in Hv. }
  nia.
Qed.

(** X2: the influencers of a graph without repeated nodes are fewer than
    half of its nodes, in either program. *)
Theorem influencers_fewer_than_half G influencers :
  NoDup (nodes G) →
  Experiment.identify_influencers_by_threshold G = inr influencers
  ∨ BA.identify_influencers_by_threshold G = inr influencers →
  2 * Z.of_nat (size influencers) < number_of_nodes G.
Proof.
  intros Hnd [Hid|Hid]; by apply influencers_size_bound.
Qed.

Lemma influencers_fewer_than_half_witness :
  2 * Z.of_nat (size ({[1; 8; 10]} : gset node)%nat)
  < number_of_nodes three_hubs.
Proof.
  apply (influencers_fewer_than_half three_hubs).
  - apply three_hubs_wf.
  - left. by vm_compute.
Defined.

(** ** The plots of [ba.py] on nodes numbered from 0 *)

Lemma colors_at_cases colors vs :
  (∃ cs, colors_at colors vs = inr cs
         ∧ Forall2 (λ v c, colors !! v = Some c) vs cs)
  ∨ (colors_at colors vs = inl IndexError
     ∧ ∃ v, v ∈ vs ∧ (length colors ≤ v)%nat).
Proof.
  induction vs as [|v vs IH]; cbn [colors_at].
  - left. exists []. split; [done | constructor].
  - unfold getindex.
    destruct (@lookup nat Color _ _ v colors) as [c|] eqn:Hc;
      cbn [bind ret raise].
    + destruct IH as [(cs & -> & Hall)|(-> & w & Hw & Hlen)]; cbn [bind].
      * left. exists (c :: cs). split; [done | by constructor].
      * right. split; [done|]. exists w. split; [by right | done].
    + right. split; [done|]. exists v. split; [left|].
      by apply lookup_ge_None.
Qed.

Lemma labels_of_seq (opinions : gmap node Label) n labels v :
  Forall2 (λ u l, opinions !! u = Some l) (seq 0 n) labels →
  (v < n)%nat → labels !! v = opinions !! v.
Proof.
  intros Hall Hv.
  destruct (Forall2_lookup_l _ _ _ v v Hall) as (l & Hl & Hop).
  { by apply lookup_seq_lt. }
  by rewrite Hl, Hop.
Qed.

Lemma ba_plot_static_illusion_facts G opinions illusion_nodes n :
  nodes G = seq 0 n → total_on G opinions →
  ∃ circle_colors square_colors,
    BA.plot_static_illusion G opinions illusion_nodes
    = inr ([(filter (λ v, v ∉ illusion_nodes) (nodes G), circle_colors);
            (filter (λ v, v ∈ illusion_nodes) (nodes G), square_colors)],
           red_count opinions)
    ∧ Forall2 (λ v c, color_of <$> opinions !! v = Some c)
        (filter (λ v, v ∉ illusion_nodes) (nodes G)) circle_colors
    ∧ Forall2 (λ v c, color_of <$> opinions !! v = Some c)
        (filter (λ v, v ∈ illusion_nodes) (nodes G)) square_colors.
Proof.
  intros Hnodes Htot. unfold BA.plot_static_illusion.
  destruct (labels_of_total opinions (nodes G)) as (labels & -> & Hall);
    [done|]. cbn [bind].
  assert (Hlen : length labels = n).
  { apply Forall2_length in Hall. by rewrite Hnodes, length_seq in Hall. }
  assert (Hcolor : ∀ v, v ∈ nodes G →
            (color_of <$> labels) !! v = color_of <$> opinions !! v).
  { intros v Hv. rewrite list_lookup_fmap. f_equal.
    rewrite Hnodes in Hall, Hv. apply (labels_of_seq _ n); [done|].
    apply elem_of_seq in Hv. lia. }
  assert (Hdraw : ∀ vs, (∀ v, v ∈ vs → v ∈ nodes G) →
            ∃ cs, colors_at (color_of <$> labels) vs = inr cs
                  ∧ Forall2 (λ v c, color_of <$> opinions !! v = Some c) vs cs).
  { intros vs Hvs.
    destruct (colors_at_cases (color_of <$> labels) vs)
      as [(cs & Hcs & Hcol)|(_ & v & Hv & Hge)].
    - exists cs. split; [done|].
      apply Forall2_same_length_lookup. apply Forall2_same_length_lookup in Hcol.
      destruct Hcol as [Hl Hcol]. split; [done|]. intros i v c Hv Hc.
      rewrite <- Hcolor; [by eapply Hcol|]. by eapply Hvs, list_elem_of_lookup_2.
    - exfalso. apply Hvs in Hv. rewrite Hnodes in Hv. apply elem_of_seq in Hv.
      rewrite length_fmap in Hge. lia. }
  assert (Hc : filter (λ v, bool_decide (v ∈ illusion_nodes) = false) (nodes G)
               = filter (λ v, v ∉ illusion_nodes) (nodes G)).
  { apply list_filter_iff. intros v. by rewrite bool_decide_eq_false. }
  assert (Hs : filter (λ v, bool_decide (v ∈ illusion_nodes) = true) (nodes G)
               = filter (λ v, v ∈ illusion_nodes) (nodes G)).
  { apply list_filter_iff. intros v. by rewrite bool_decide_eq_true. }
  rewrite Hc, Hs.
  destruct (Hdraw (filter (λ v, v ∉ illusion_nodes) (nodes G)))
    as (cc & -> & Hcc); [by intros v [_ ?]%list_elem_of_filter|].
  destruct (Hdraw (filter (λ v, v ∈ illusion_nodes) (nodes G)))
    as (sc & -> & Hsc); [by intros v [_ ?]%list_elem_of_filter|].
  cbn [bind]. by exists cc, sc.
Qed.

Lemma ba_plot_network_evolution_total G opinions_start opinions_end :
  total_on G opinions_start → total_on G opinions_end →
  BA.plot_network_evolution G opinions_start opinions_end
  = inr (color_of <$> ((λ v, default Blue (opinions_start !! v)) <$> nodes G),
         color_of <$> ((λ v, default Blue (opinions_end !! v)) <$> nodes G)).
Proof.
  assert (Hread : ∀ (opinions : gmap node Label) vs,
            (∀ u, u ∈ vs → is_Some (opinions !! u)) →
            labels_of opinions vs
            = inr ((λ v, default Blue (opinions !! v)) <$> vs)).
  { intros opinions vs Htot.
    destruct (labels_of_total opinions vs Htot) as (ls & -> & Hall).
    f_equal. induction Hall as [|u l vs ls Hl _ IH]; [done|].
    cbn [fmap list_fmap]. rewrite Hl. cbn [default]. f_equal.
    apply IH. intros w Hw. apply Htot. by right. }
  intros Hs He. unfold BA.plot_network_evolution.
  rewrite !Hread by done. done.
Qed.

(** ** The global majority of the initial labelings *)

Lemma blue_count_opinions_of G (S : gset node) :
  NoDup (nodes G) → S ⊆ list_to_set (nodes G) →
  blue_count (opinions_of G S) = number_of_nodes G - Z.of_nat (size S).
Proof.
  intros Hnd Hsub. rewrite <- (red_count_opinions_of G S Hnd Hsub).
  rewrite <- size_minus_red, count_red_values. f_equal.
  unfold opinions_of, number_of_nodes. f_equal.
  rewrite map_size_list_to_map, length_fmap; [done|].
  by rewrite <- list_fmap_compose, list_fmap_id.
Qed.

Lemma global_majority_opinions_of G (S : gset node) :
  NoDup (nodes G) → S ⊆ list_to_set (nodes G) →
  2 * Z.of_nat (size S) ≤ number_of_nodes G →
  global_majority (opinions_of G S) = Blue.
Proof.
  intros Hnd Hsub Hhalf. unfold global_majority.
  rewrite red_count_opinions_of, blue_count_opinions_of by done.
  case_decide; [lia | done].
Qed.

Lemma target_count_half (frac : Q) (N : Z) :
  (0 <= frac)%Q → (frac <= 1 # 2)%Q → 0 ≤ N < 2 ^ 53 →
  2 * Experiment.target_count frac N ≤ N.
Proof.
  intros H0 H1 HN. unfold Experiment.target_count, float_mul.
  rewrite float_of_int_exact by done.
  assert (Hx : (0 <= frac * inject_Z N)%Q).
  { apply Qmult_le_0_compat; [done|]. unfold Qle. simpl. lia. }
  assert (Hle : (frac * inject_Z N <= N # Z.to_pos (2 ^ 1))%Q).
  { unfold Qle in *. simpl in *. nia. }
  pose proof (int_le _ N 1 (b64_round_nonneg _ Hx) ltac:(lia)
                (b64_round_le _ N 1 Hx ltac:(lia) ltac:(lia) Hle)) as Hb.
  change (2 ^ 1) with 2 in Hb.
  pose proof (Z.mul_div_le N 2 ltac:(lia)). lia.
Qed.

(** X3: in [ba.py], on a well-formed graph with at least one node, whose
    nodes are 0, ..., n-1 in this order (as the generator numbers them), the
    main block returns, its plotting calls included; its initial labeling
    has one [Red] node per influencer, and the global majority it prints is
    always [Blue]. *)
Theorem ba_main_global_majority_blue G n :
  graph_wf G → nodes G = seq 0 n → number_of_nodes G ≠ 0 →
  ∃ influencers static_count final_count,
    BA.identify_influencers_by_threshold G = inr influencers
    ∧ red_count (opinions_of G influencers) = Z.of_nat (size influencers)
    ∧ BA.main G = inr (Blue, static_count, final_count).
Proof.
  intros Hwf Hnodes Hn. unfold BA.main.
  assert (∃ influencers,
            Experiment.identify_influencers_by_threshold G = inr influencers
            ∧ BA.identify_influencers_by_threshold G = inr influencers)
    as (influencers & Hexp & Hba).
  { unfold Experiment.identify_influencers_by_threshold,
      BA.identify_influencers_by_threshold.
    rewrite !decide_False by done. by eexists. }
  rewrite Hba. cbn [bind].
  pose proof (identify_subset G influencers Hexp) as Hsub.
  pose proof (influencers_size_bound G influencers (proj1 Hwf) Hexp) as Hhalf.
  rewrite ba_static_total by (done || apply opinions_of_total).
  rewrite global_majority_opinions_of by (apply Hwf || done || lia).
  cbn [bind fst snd].
  match goal with |- context [BA.plot_static_illusion G ?o ?l] =>
    destruct (ba_plot_static_illusion_facts G o l n Hnodes
                (opinions_of_total G influencers)) as (cc & sc & -> & _)
  end.
  cbn [bind].
  destruct (ba_simulation_loop_total BA.phi G Hwf BA.max_rounds
              (opinions_of G influencers) [] (opinions_of_total G influencers))
    as (s & final & Hsim & _ & Hge & Hfinal & _).
  unfold BA.dynamic_simulation, BA.dynamic_simulation_with. rewrite Hsim.
  cbn [bind fst snd app].
  destruct (series_last_and_max s) as (x & _ & -> & _).
  { apply Hge. unfold BA.max_rounds. lia. }
  cbn [bind].
  rewrite ba_plot_network_evolution_total
    by (done || apply opinions_of_total).
  cbn [bind]. exists influencers. eexists _, _.
  split_and!; [done | | done].
  apply red_count_opinions_of; [apply Hwf | done].
Qed.

Lemma ba_main_global_majority_blue_witness :
  ∃ influencers static_count final_count,
    BA.identify_influencers_by_threshold three_hubs = inr influencers
    ∧ red_count (opinions_of three_hubs influencers)
      = Z.of_nat (size influencers)
    ∧ BA.main three_hubs = inr (Blue, static_count, final_count).
Proof.
  apply (ba_main_global_majority_blue three_hubs 16).
  - apply three_hubs_wf.
  - reflexivity.
  - by vm_compute.
Defined.

(** X4: in [experiment.py], for a target fraction in [0, 1/2] (as are the
    configured 0.10, 0.30 and 0.40) the initial labeling of a well-formed
    graph of fewer than [2^53] nodes has at most as many [Red] as [Blue]
    labels, and the detector returns [Blue] as its global majority. (From
    [2^53] nodes on the node count is itself rounded in the product, and
    half of the rounded count can exceed half of the nodes.) *)
Theorem initial_global_majority_blue
    set_iter sample G N influencers frac :
  set_iter_ok set_iter → sample_ok sample →
  graph_wf G → number_of_nodes G = N → N < 2 ^ 53 →
  influencers ⊆ list_to_set (nodes G) →
  (0 <= frac)%Q → (frac <= 1 # 2)%Q →
  ∃ opinions illusion,
    Experiment.opinions_init set_iter sample G N influencers frac = inr opinions
    ∧ red_count opinions ≤ blue_count opinions
    ∧ Experiment.static_majority_illusion G opinions = inr (Blue, illusion).
Proof.
  intros Hiter Hsample Hwf HN Hlt Hsub H0 Hhalf.
  assert (0 ≤ N) by (rewrite <- HN; unfold number_of_nodes; lia).
  assert (Hone : (frac <= 1)%Q) by (eapply Qle_trans; [done | by vm_compute]).
  pose proof (target_count_bounds frac N H0 Hone ltac:(lia)) as Hb.
  pose proof (target_count_half frac N H0 Hhalf ltac:(lia)) as Hh.
  unfold Experiment.opinions_init.
  destruct (minority_set_size set_iter sample Hiter Hsample G Hwf influencers
              (Experiment.target_count frac N) Hsub) as (S & -> & HS & Hsize);
    [rewrite HN; lia|].
  cbn [bind ret]. eexists _, _. split; [done|].
  rewrite red_count_opinions_of, blue_count_opinions_of by (apply Hwf || done).
  split; [lia|].
  rewrite static_total by (done || apply opinions_of_total).
  rewrite global_majority_opinions_of by (apply Hwf || done || lia). done.
Qed.

Lemma initial_global_majority_blue_witness :
  ∃ opinions illusion,
    Experiment.opinions_init slot_iter first_k three_hubs 16
      {[1; 8; 10]}%nat (1 # 16) = inr opinions
    ∧ red_count opinions ≤ blue_count opinions
    ∧ Experiment.static_majority_illusion three_hubs opinions
      = inr (Blue, illusion).
Proof.
  apply (initial_global_majority_blue
           slot_iter first_k three_hubs 16 {[1; 8; 10]}%nat (1 # 16)).
  - apply slot_iter_ok.
  - apply first_k_ok.
  - apply three_hubs_wf.
  - reflexivity.
  - by vm_compute.
  - apply (bool_decide_unpack _). by vm_compute.
  - by vm_compute.
  - by vm_compute.
Defined.

(** ** The detector on partial labelings *)

Lemma labels_of_cases (opinions : gmap node Label) nbrs :
  (∃ ls, labels_of opinions nbrs = inr ls
         ∧ ∀ u, u ∈ nbrs → is_Some (opinions !! u))
  ∨ (labels_of opinions nbrs = inl KeyError
     ∧ ∃ u, u ∈ nbrs ∧ opinions !! u = None).
Proof.
  induction nbrs as [|u nbrs IH]; cbn [labels_of].
  - left. exists []. split; [done|]. intros u Hu. by apply elem_of_nil in Hu.
  - unfold getitem. destruct (opinions !! u) as [l|] eqn:Hu; cbn [bind ret raise].
    + destruct IH as [(ls & -> & Hall)|(-> & w & Hw & Hnone)]; cbn [bind].
      * left. exists (l :: ls). split; [done|].
        intros w [->|Hw]%elem_of_cons; [by eexists | by apply Hall].
      * right. split; [done|]. exists w. split; [by right | done].
    + right. split; [done|]. exists u. split; [left | done].
Qed.

Lemma illusion_loop_cases G opinions gm vs : ∀ acc,
  (∃ illusion, Experiment.illusion_loop G opinions gm vs acc = inr illusion
     ∧ ∀ v, v ∈ vs → ∀ u, u ∈ neighbors G v → is_Some (opinions !! u))
  ∨ (Experiment.illusion_loop G opinions gm vs acc = inl KeyError
     ∧ ∃ v u, v ∈ vs ∧ u ∈ neighbors G v ∧ opinions !! u = None).
Proof.
  induction vs as [|v vs IH]; intros acc; cbn [Experiment.illusion_loop].
  - left. exists acc. split; [done|]. intros v Hv. by apply elem_of_nil in Hv.
  - assert (Hnext : ∀ acc',
      (∀ u, u ∈ neighbors G v → is_Some (opinions !! u)) →
      (∃ illusion, Experiment.illusion_loop G opinions gm vs acc' = inr illusion
         ∧ ∀ w, w ∈ v :: vs → ∀ u, u ∈ neighbors G w → is_Some (opinions !! u))
      ∨ (Experiment.illusion_loop G opinions gm vs acc' = inl KeyError
         ∧ ∃ w u, w ∈ v :: vs ∧ u ∈ neighbors G w ∧ opinions !! u = None)).
    { intros acc' Hv.
      destruct (IH acc') as [(ill & -> & Hall)|(-> & w & u & Hw & Hu & Hnone)].
      - left. exists ill. split; [done|].
        intros w [->|Hw]%elem_of_cons; [done | by apply Hall].
      - right. split; [done|]. exists w, u. split_and!; [by right | done..]. }
    destruct (labels_of_cases opinions (neighbors G v))
      as [(ls & Hls & Hall)|(Hraise & u & Hu & Hnone)].
    + destruct (neighbors G v) as [|n ns] eqn:Hn; [by apply Hnext|].
      unfold red_among. rewrite Hls. cbn [bind ret].
      repeat case_decide; by apply Hnext.
    + right. destruct (neighbors G v) as [|n ns] eqn:Hn.
      { by apply elem_of_nil in Hu. }
      unfold red_among. rewrite Hraise. cbn [bind]. split; [done|].
      exists v, u. rewrite Hn. split_and!; [left | done..].
Qed.

(** X5: the detector of either program reads the labels of neighbors only.
    It returns a result exactly when every neighbor of every node has a
    label, and raises [KeyError], never another error, exactly when some
    neighbor has none. *)
Theorem static_illusion_key_error G opinions :
  ((∃ r, Experiment.static_majority_illusion G opinions = inr r) ↔
   ∀ v u, v ∈ nodes G → u ∈ neighbors G v → is_Some (opinions !! u))
  ∧ (Experiment.static_majority_illusion G opinions = inl KeyError ↔
     ∃ v u, v ∈ nodes G ∧ u ∈ neighbors G v ∧ opinions !! u = None)
  ∧ (∀ e, Experiment.static_majority_illusion G opinions = inl e →
          e = KeyError)
  ∧ BA.static_majority_illusion G opinions
    = Experiment.static_majority_illusion G opinions.
Proof.
  match goal with |- ?A ∧ ?B ∧ ?C ∧ _ =>
    cut (A ∧ B ∧ C);
    [intros (? & ? & ?); split_and!; [done.. | apply ba_static_eq]|]
  end.
  unfold Experiment.static_majority_illusion. cbv zeta.
  set (gm := if decide (_ > _) then Red else Blue).
  destruct (illusion_loop_cases G opinions gm (nodes G) [])
    as [(ill & Hill & Hall)|(Hraise & v & u & Hv & Hu & Hnone)].
  - rewrite Hill. cbn [bind ret]. split_and!.
    + split; [intros _ v u Hv Hu; by eapply Hall | by eexists].
    + split; [discriminate|]. intros (v & u & Hv & Hu & Hnone).
      destruct (Hall v Hv u Hu) as [l Hl]. congruence.
    + discriminate.
  - rewrite Hraise. cbn [bind]. split_and!.
    + split; [by intros [r Hr]|]. intros Hall.
      destruct (Hall v u Hv Hu) as [l Hl]. congruence.
    + split; [|done]. intros _. by exists v, u.
    + by intros e [= <-].
Qed.

(** ** The illusion list and the series *)

Lemma illusion_loop_sublist G opinions gm vs : ∀ acc illusion,
  Experiment.illusion_loop G opinions gm vs acc = inr illusion →
  ∃ l, illusion = acc ++ l ∧ l `sublist_of` vs.
Proof.
  induction vs as [|v vs IH]; intros acc illusion;
    cbn [Experiment.illusion_loop].
  - intros [= <-]. exists []. by rewrite app_nil_r.
  - assert (Hskip : Experiment.illusion_loop G opinions gm vs acc = inr illusion →
                    ∃ l, illusion = acc ++ l ∧ l `sublist_of` v :: vs).
    { intros (l & -> & Hl)%IH. exists l. split; [done | by apply sublist_cons]. }
    destruct (neighbors G v) as [|n ns]; [done|].
    intros (r & _ & Hloop)%bind_inr. revert Hloop.
    repeat case_decide; try exact Hskip;
      intros (l & -> & Hl)%IH; exists (v :: l); rewrite <- app_assoc;
      (split; [done | by apply sublist_skip]).
Qed.

Lemma static_count_bound G opinions gi :
  Experiment.static_majority_illusion G opinions = inr gi →
  0 ≤ Z.of_nat (length gi.2) ≤ number_of_nodes G.
Proof.
  unfold Experiment.static_majority_illusion. cbv zeta.
  intros (ill & Hloop & [= <-])%bind_inr.
  apply illusion_loop_sublist in Hloop as (l & -> & Hl). simpl.
  apply sublist_length in Hl. unfold number_of_nodes. lia.
Qed.

(** X6: whenever the detector of either program returns, its illusion list
    is a sublist of the node list of the graph: nodes in graph order, none
    that is not in the graph, none more often than the graph lists it. *)
Theorem illusion_list_sublist G opinions global_maj illusion :
  Experiment.static_majority_illusion G opinions = inr (global_maj, illusion)
  ∨ BA.static_majority_illusion G opinions = inr (global_maj, illusion) →
  illusion `sublist_of` nodes G
  ∧ (length illusion ≤ length (nodes G))%nat
  ∧ (NoDup (nodes G) → NoDup illusion).
Proof.
  intros Hst. assert (Hexp : Experiment.static_majority_illusion G opinions
                             = inr (global_maj, illusion)).
  { destruct Hst as [?|Hba]; [done|]. by rewrite <- ba_static_eq. }
  clear Hst. revert Hexp.
  unfold Experiment.static_majority_illusion. cbv zeta.
  intros (ill & Hloop & [= _ <-])%bind_inr.
  apply illusion_loop_sublist in Hloop as (l & -> & Hl). simpl.
  split_and!; [done | by apply sublist_length |].
  intros Hnd. by eapply sublist_NoDup.
Qed.

Lemma illusion_list_sublist_witness :
  [1%nat] `sublist_of` nodes pair_graph
  ∧ (length [1%nat] ≤ length (nodes pair_graph))%nat
  ∧ (NoDup (nodes pair_graph) → NoDup [1%nat]).
Proof.
  apply (illusion_list_sublist pair_graph pair_opinions Blue [1%nat]).
  left. by vm_compute.
Defined.

Lemma exp_series_bound G rounds : ∀ opinions series0 series final,
  Experiment.simulation_loop G rounds opinions series0 = inr (series, final) →
  Forall (λ x, 0 ≤ x ≤ number_of_nodes G) series0 →
  Forall (λ x, 0 ≤ x ≤ number_of_nodes G) series
  ∧ (length series ≤ length series0 + rounds)%nat.
Proof.
  induction rounds as [|rounds IH]; intros opinions series0 series final;
    cbn [Experiment.simulation_loop].
  - intros [= <- <-] Hall. split; [done | lia].
  - intros (gi & Hgi & Hloop)%bind_inr Hall.
    apply bind_inr in Hloop as (new_op & _ & Hloop).
    assert (Hall' : Forall (λ x, 0 ≤ x ≤ number_of_nodes G)
                      (series0 ++ [Z.of_nat (length gi.2)])).
    { apply Forall_app. split; [done|]. constructor; [|done].
      by eapply static_count_bound. }
    case_decide.
    + injection Hloop as <- <-. split; [done|]. rewrite length_app. simpl. lia.
    + apply IH in Hloop as [? Hlen]; [|done]. split; [done|].
      rewrite length_app in Hlen. simpl in Hlen. lia.
Qed.

Lemma ba_series_bound phi G rounds : ∀ opinions series0 series final,
  BA.simulation_loop phi G rounds opinions series0 = inr (series, final) →
  Forall (λ x, 0 ≤ x ≤ number_of_nodes G) series0 →
  Forall (λ x, 0 ≤ x ≤ number_of_nodes G) series
  ∧ (length series ≤ length series0 + rounds)%nat.
Proof.
  induction rounds as [|rounds IH]; intros opinions series0 series final;
    cbn [BA.simulation_loop].
  - intros [= <- <-] Hall. split; [done | lia].
  - intros (gi & Hgi & Hloop)%bind_inr Hall.
    apply bind_inr in Hloop as (new_op & _ & Hloop).
    assert (Hall' : Forall (λ x, 0 ≤ x ≤ number_of_nodes G)
                      (series0 ++ [Z.of_nat (length gi.2)])).
    { apply Forall_app. split; [done|]. constructor; [|done].
      eapply static_count_bound. by rewrite <- ba_static_eq. }
    case_decide.
    + injection Hloop as <- <-. split; [done|]. rewrite length_app. simpl. lia.
    + apply IH in Hloop as [? Hlen]; [|done]. split; [done|].
      rewrite length_app in Hlen. simpl in Hlen. lia.
Qed.

(** X7: whenever a simulation of either program returns, under any round
    cap and any threshold, every entry of its series lies between 0 and the
    number of nodes, and the series has at most as many entries as the
    cap. *)
Theorem series_entries_bounded phi rounds G opinions_init series final :
  Experiment.dynamic_simulation_with rounds G opinions_init
  = inr (series, final)
  ∨ BA.dynamic_simulation_with phi rounds G opinions_init
    = inr (series, final) →
  Forall (λ x, 0 ≤ x ≤ number_of_nodes G) series
  ∧ (length series ≤ rounds)%nat.
Proof.
  intros [Hsim|Hsim].
  - by apply exp_series_bound in Hsim.
  - by apply ba_series_bound in Hsim.
Qed.

Lemma series_entries_bounded_witness :
  Forall (λ x, 0 ≤ x ≤ number_of_nodes star_and_triangle)
    (mjoin (replicate 25 [5; 8] : list (list Z)))
  ∧ (length (mjoin (replicate 25 [5%Z; 8%Z])) ≤ 50)%nat.
Proof.
  apply (series_entries_bounded BA.phi 50 star_and_triangle center_red
           (mjoin (replicate 25 [5%Z; 8%Z])) center_red).
  left. vm_compute. reflexivity.
Defined.

(** ** One round of each diffusion rule, key by key *)

Lemma exp_update_loop_exact G opinions vs : ∀ acc,
  (∀ v, v ∈ vs → is_Some (opinions !! v)) →
  (∀ v, v ∈ vs → ∀ u, u ∈ neighbors G v → is_Some (opinions !! u)) →
  ∃ new_op,
    Experiment.update_loop G opinions vs acc = inr new_op
    ∧ ∀ k, new_op !! k
           = if decide (k ∈ vs) then next_label G opinions k else acc !! k.
Proof.
  induction vs as [|v vs IH]; intros acc Hv Hn;
    cbn [Experiment.update_loop].
  - exists acc. split; [done|]. intros k. rewrite decide_False; [done|].
    apply not_elem_of_nil.
  - destruct (Hv v) as [l Hl]; [left|].
    destruct (red_among_total G opinions v) as [Hr Hb]; [apply Hn; left|].
    assert (Hstep : ∀ x, Some x = next_label G opinions v →
      ∃ new_op,
        Experiment.update_loop G opinions vs (<[v:=x]> acc) = inr new_op
        ∧ ∀ k, new_op !! k
               = if decide (k ∈ v :: vs) then next_label G opinions k
                 else acc !! k).
    { intros x Hx. destruct (IH (<[v:=x]> acc)) as (new_op & -> & Hnew).
      - intros; apply Hv; by right.
      - intros w ?; apply Hn; by right.
      - exists new_op. split; [done|]. intros k. rewrite Hnew.
        destruct (decide (k = v)) as [->|Hkv].
        + rewrite lookup_insert_eq, (decide_True (P:=v ∈ v :: vs)) by left.
          by case_decide.
        + rewrite lookup_insert_ne by done.
          apply decide_ext. rewrite elem_of_cons. tauto. }
    unfold getitem. rewrite Hl. cbn [bind ret].
    unfold next_label, local_majority in Hstep. rewrite <- Hb in Hstep.
    destruct (neighbors G v) as [|n ns] eqn:Hnbrs.
    + apply Hstep. unfold nbr_red. rewrite Hnbrs. simpl.
      rewrite ?decide_False by lia. by rewrite Hl.
    + rewrite Hr. cbn [bind].
      repeat case_decide; apply Hstep; repeat case_decide;
        done || lia || by rewrite Hl.
Qed.

(** X8: in the majority vote of [experiment.py], on a well-formed graph
    with a total labeling, one round returns a labeling whose keys are the
    nodes of the graph; each node has the strict majority label of its
    neighbors if there is one and keeps its label otherwise. *)
Theorem majority_vote_round_exact G opinions :
  graph_wf G → total_on G opinions →
  ∃ new_op,
    Experiment.update G opinions = inr new_op
    ∧ ∀ k, new_op !! k
           = if decide (k ∈ nodes G) then
               match local_majority G opinions k with
               | Some l => Some l
               | None => opinions !! k
               end
             else None.
Proof.
  intros Hwf Htot.
  destruct (exp_update_loop_exact G opinions (nodes G) ∅) as (new_op & Hupd & Hnew);
    [done | by apply neighbors_labeled |].
  exists new_op. split; [done|]. intros k. rewrite Hnew.
  by rewrite lookup_empty.
Qed.

Lemma majority_vote_round_exact_witness :
  ∃ new_op,
    Experiment.update star_and_triangle center_red = inr new_op
    ∧ ∀ k, new_op !! k
           = if decide (k ∈ nodes star_and_triangle) then
               match local_majority star_and_triangle center_red k with
               | Some l => Some l
               | None => center_red !! k
               end
             else None.
Proof.
  apply (majority_vote_round_exact star_and_triangle center_red).
  - apply graph_wf_check; apply (bool_decide_unpack _); by vm_compute.
  - apply opinions_of_total.
Defined.

Lemma half_threshold (d r : Z) :
  ((1 # 2) * inject_Z d < inject_Z r)%Q ↔ d < 2 * r.
Proof. unfold Qlt, Qmult, inject_Z. simpl. lia. Qed.

(** X9: in the one-way diffusion of [ba.py] with the configured threshold
    0.5, on a well-formed graph with a total labeling, one round returns the
    labeling in which exactly the [Blue] nodes of the graph with
    [2 × (Red neighbors) > degree] have become [Red]; every other key,
    also one that is not a node, keeps its entry. *)
Theorem one_way_round_exact G opinions :
  graph_wf G → total_on G opinions →
  ∃ new_op,
    BA.update BA.phi G opinions = inr new_op
    ∧ ∀ k, new_op !! k
           = if decide (k ∈ nodes G ∧ opinions !! k = Some Blue
                        ∧ degree G k < 2 * nbr_red G opinions k)
             then Some Red else opinions !! k.
Proof.
  intros Hwf Htot.
  destruct (ba_update_total BA.phi G opinions Hwf Htot) as (new_op & Hupd & Hnew).
  exists new_op. split; [done|]. intros k. rewrite Hnew.
  apply decide_ext. unfold flips, BA.phi. rewrite half_threshold. tauto.
Qed.

Lemma one_way_round_exact_witness :
  ∃ new_op,
    BA.update BA.phi pair_graph pair_opinions = inr new_op
    ∧ ∀ k, new_op !! k
           = if decide (k ∈ nodes pair_graph ∧ pair_opinions !! k = Some Blue
                        ∧ degree pair_graph k < 2 * nbr_red pair_graph pair_opinions k)
             then Some Red else pair_opinions !! k.
Proof.
  apply (one_way_round_exact pair_graph pair_opinions).
  - apply pair_graph_wf.
  - apply pair_opinions_total.
Defined.

(** ** Stopping before the round cap *)

Lemma exp_early_stop_fixed G rounds : ∀ opinions series0 series final,
  Experiment.simulation_loop G rounds opinions series0 = inr (series, final) →
  (length series < length series0 + rounds)%nat →
  Experiment.update G final = inr final
  ∧ ∃ gi, Experiment.static_majority_illusion G final = inr gi
          ∧ last series = Some (Z.of_nat (length gi.2)).
Proof.
  induction rounds as [|rounds IH]; intros opinions series0 series final;
    cbn [Experiment.simulation_loop].
  - intros [= <- <-] Hlen. lia.
  - intros (gi & Hgi & Hloop)%bind_inr Hlen.
    apply bind_inr in Hloop as (new_op & Hupd & Hloop).
    case_decide as Hsame.
    + injection Hloop as <- <-. subst new_op. split; [done|].
      exists gi. split; [done|]. by rewrite last_snoc.
    + apply IH in Hloop; [done|]. rewrite length_app. simpl. lia.
Qed.

Lemma ba_early_stop_fixed phi G rounds : ∀ opinions series0 series final,
  BA.simulation_loop phi G rounds opinions series0 = inr (series, final) →
  (length series < length series0 + rounds)%nat →
  BA.update phi G final = inr final
  ∧ ∃ gi, BA.static_majority_illusion G final = inr gi
          ∧ last series = Some (Z.of_nat (length gi.2)).
Proof.
  induction rounds as [|rounds IH]; intros opinions series0 series final;
    cbn [BA.simulation_loop].
  - intros [= <- <-] Hlen. lia.
  - intros (gi & Hgi & Hloop)%bind_inr Hlen.
    apply bind_inr in Hloop as (new_op & Hupd & Hloop).
    case_decide as Hsame.
    + injection Hloop as <- <-. subst new_op. split; [done|].
      exists gi. split; [done|]. by rewrite last_snoc.
    + apply IH in Hloop; [done|]. rewrite length_app. simpl. lia.
Qed.

(** X10: when the majority-vote simulation of [experiment.py] returns a
    series shorter than the round cap, the labeling it returns is a fixed
    point of the round update, and the last entry of the series is the
    illusion count of that labeling. *)
Theorem majority_vote_early_stop rounds G opinions_init series final :
  Experiment.dynamic_simulation_with rounds G opinions_init
  = inr (series, final) →
  (length series < rounds)%nat →
  Experiment.update G final = inr final
  ∧ ∃ gi, Experiment.static_majority_illusion G final = inr gi
          ∧ getlast series = inr (Z.of_nat (length gi.2)).
Proof.
  intros Hsim Hlen.
  apply exp_early_stop_fixed in Hsim as [Hfix (gi & Hgi & Hlast)]; [|simpl; lia].
  split; [done|]. exists gi. split; [done|]. unfold getlast. by rewrite Hlast.
Qed.

Lemma majority_vote_early_stop_witness :
  Experiment.update pair_graph {[0%nat := Red; 1%nat := Red]}
  = inr {[0%nat := Red; 1%nat := Red]}
  ∧ ∃ gi, Experiment.static_majority_illusion pair_graph
            {[0%nat := Red; 1%nat := Red]} = inr gi
          ∧ getlast [0] = inr (Z.of_nat (length gi.2)).
Proof.
  apply (majority_vote_early_stop 50 pair_graph
           {[0%nat := Red; 1%nat := Red]} [0]
           {[0%nat := Red; 1%nat := Red]}).
  - vm_compute. reflexivity.
  - simpl. lia.
Defined.

(** X11: when the one-way simulation of [ba.py] returns a series shorter
    than the round cap, for any threshold, the labeling it returns is a
    fixed point of the round update, and the last entry of the series, the
    "final number under illusion" of the main block, is the illusion count
    of that labeling. *)
Theorem one_way_early_stop phi rounds G opinions_init series final :
  BA.dynamic_simulation_with phi rounds G opinions_init
  = inr (series, final) →
  (length series < rounds)%nat →
  BA.update phi G final = inr final
  ∧ ∃ gi, BA.static_majority_illusion G final = inr gi
          ∧ getlast series = inr (Z.of_nat (length gi.2)).
Proof.
  intros Hsim Hlen.
  apply ba_early_stop_fixed in Hsim as [Hfix (gi & Hgi & Hlast)]; [|simpl; lia].
  split; [done|]. exists gi. split; [done|]. unfold getlast. by rewrite Hlast.
Qed.

Lemma one_way_early_stop_witness :
  BA.update BA.phi pair_graph {[0%nat := Red; 1%nat := Red]}
  = inr {[0%nat := Red; 1%nat := Red]}
  ∧ ∃ gi, BA.static_majority_illusion pair_graph
            {[0%nat := Red; 1%nat := Red]} = inr gi
          ∧ getlast [1; 0] = inr (Z.of_nat (length gi.2)).
Proof.
  apply (one_way_early_stop BA.phi 50 pair_graph pair_opinions [1; 0]
           {[0%nat := Red; 1%nat := Red]}).
  - vm_compute. reflexivity.
  - simpl. lia.
Defined.

(** ** Isolated nodes *)

Lemma isolated_no_flip phi G opinions v :
  neighbors G v = [] → ¬ flips phi G opinions v.
Proof.
  intros Hiso [_ Hlt]. revert Hlt. unfold degree, nbr_red. rewrite Hiso.
  rewrite decide_False by apply not_elem_of_nil. simpl.
  unfold Qlt, Qmult, inject_Z. simpl. lia.
Qed.

Lemma isolated_next_label G opinions v :
  neighbors G v = [] → next_label G opinions v = opinions !! v.
Proof.
  intros Hiso. unfold next_label, local_majority, nbr_red, nbr_blue.
  rewrite Hiso. simpl. by rewrite ?decide_False by lia.
Qed.

Lemma exp_loop_isolated G v :
  graph_wf G → v ∈ nodes G → neighbors G v = [] →
  ∀ rounds opinions series, total_on G opinions →
  ∃ series' final,
    Experiment.simulation_loop G rounds opinions series = inr (series', final)
    ∧ final !! v = opinions !! v.
Proof.
  intros Hwf Hv Hiso.
  induction rounds as [|rounds IH]; intros opinions series Htot;
    cbn [Experiment.simulation_loop]; [by eexists _, _|].
  rewrite static_total by done. cbn [bind ret].
  destruct (exp_update_loop_exact G opinions (nodes G) ∅) as (new_op & Hupd & Hnew);
    [done | by apply neighbors_labeled |].
  unfold Experiment.update. rewrite Hupd. cbn [bind].
  case_decide; [by eexists _, _|].
  assert (Htot' : total_on G new_op).
  { intros w Hw. rewrite Hnew, decide_True by done.
    unfold next_label. destruct (local_majority G opinions w); [by eexists|].
    by apply Htot. }
  destruct (IH new_op (series ++ [Z.of_nat (length
      (global_majority opinions,
       filter (illusioned G opinions (global_majority opinions)) (nodes G)).2)])
      Htot') as (series' & final & -> & Hfinal).
  exists series', final. split; [done|].
  by rewrite Hfinal, Hnew, decide_True, isolated_next_label.
Qed.

Lemma ba_loop_isolated phi G v :
  graph_wf G → neighbors G v = [] →
  ∀ rounds opinions series, total_on G opinions →
  ∃ series' final,
    BA.simulation_loop phi G rounds opinions series = inr (series', final)
    ∧ final !! v = opinions !! v.
Proof.
  intros Hwf Hiso.
  induction rounds as [|rounds IH]; intros opinions series Htot;
    cbn [BA.simulation_loop]; [by eexists _, _|].
  rewrite ba_static_total by done. cbn [bind ret].
  destruct (ba_update_total phi G opinions Hwf Htot) as (new_op & Hupd & Hnew).
  rewrite Hupd. cbn [bind].
  case_decide; [by eexists _, _|].
  assert (Htot' : total_on G new_op).
  { intros w Hw. rewrite Hnew. case_decide; [by eexists | by apply Htot]. }
  destruct (IH new_op (series ++ [Z.of_nat (length
      (global_majority opinions,
       filter (illusioned G opinions (global_majority opinions)) (nodes G)).2)])
      Htot') as (series' & final & -> & Hfinal).
  exists series', final. split; [done|].
  rewrite Hfinal, Hnew. rewrite decide_False; [done|].
  intros [_ Hflip]. by eapply isolated_no_flip.
Qed.

(** X12: a node of the graph without neighbors has, in the labeling
    returned by the simulation of either program, the label it started with,
    under any round cap and any threshold. *)
Theorem isolated_node_keeps_label phi rounds G opinions_init v :
  graph_wf G → total_on G opinions_init →
  v ∈ nodes G → neighbors G v = [] →
  (∃ series final,
      Experiment.dynamic_simulation_with rounds G opinions_init
      = inr (series, final)
      ∧ final !! v = opinions_init !! v)
  ∧ (∃ series final,
      BA.dynamic_simulation_with phi rounds G opinions_init
      = inr (series, final)
      ∧ final !! v = opinions_init !! v).
Proof.
  intros Hwf Htot Hv Hiso. split.
  - by apply exp_loop_isolated.
  - by apply ba_loop_isolated.
Qed.

Lemma isolated_node_keeps_label_witness :
  (∃ series final,
      Experiment.dynamic_simulation_with 50 isolated4 (opinions_of isolated4 {[2%nat]})
      = inr (series, final)
      ∧ final !! 2%nat = opinions_of isolated4 {[2%nat]} !! 2%nat)
  ∧ (∃ series final,
      BA.dynamic_simulation_with BA.phi 50 isolated4 (opinions_of isolated4 {[2%nat]})
      = inr (series, final)
      ∧ final !! 2%nat = opinions_of isolated4 {[2%nat]} !! 2%nat).
Proof.
  apply (isolated_node_keeps_label BA.phi 50 isolated4
           (opinions_of isolated4 {[2%nat]}) 2%nat).
  - apply graph_wf_check; apply (bool_decide_unpack _); by vm_compute.
  - apply opinions_of_total.
  - apply (bool_decide_unpack _). by vm_compute.
  - reflexivity.
Defined.

(** ** The cap-or-fill block at its edges *)

Lemma rest_length set_iter G (influencers : gset node) :
  set_iter_ok set_iter → NoDup (nodes G) →
  influencers ⊆ list_to_set (nodes G) →
  length (set_iter (list_to_set (nodes G) ∖ influencers))
  = (length (nodes G) - size influencers)%nat.
Proof.
  intros Hiter Hnd Hsub. rewrite (Hiter _).
  change (length (elements ?X)) with (size X).
  rewrite size_difference by done. by rewrite size_list_to_set.
Qed.

(** X13: when the influencer count does not exceed the target and the
    target does not exceed the number of nodes, the block keeps every
    influencer in the Minority set and adds [target − |influencers|] nodes
    of the graph that are not influencers. *)
Theorem fill_keeps_influencers set_iter sample G influencers target :
  set_iter_ok set_iter → sample_ok sample → graph_wf G →
  influencers ⊆ list_to_set (nodes G) →
  Z.of_nat (size influencers) ≤ target ≤ number_of_nodes G →
  ∃ S : gset node,
    Experiment.minority_set set_iter sample G influencers target = inr S
    ∧ influencers ⊆ S
    ∧ S ⊆ list_to_set (nodes G)
    ∧ Z.of_nat (size (S ∖ influencers))
      = target - Z.of_nat (size influencers).
Proof.
  intros Hiter Hsample Hwf Hsub Htarget.
  destruct (minority_set_size set_iter sample Hiter Hsample G Hwf
              influencers target Hsub) as (S & HS & HSsub & HSsize); [lia|].
  exists S. split; [done|].
  assert (Hincl : influencers ⊆ S).
  { revert HS. unfold Experiment.minority_set.
    rewrite decide_False by lia. case_decide.
    - intros (drawn & _ & [= <-])%bind_inr. apply union_subseteq_l.
    - by intros [= <-]. }
  split_and!; [done..|].
  rewrite size_difference by done. lia.
Qed.

Lemma fill_keeps_influencers_witness :
  ∃ S : gset node,
    Experiment.minority_set slot_iter first_k three_hubs {[1; 8; 10]}%nat 5
    = inr S
    ∧ {[1; 8; 10]}%nat ⊆ S
    ∧ S ⊆ list_to_set (nodes three_hubs)
    ∧ Z.of_nat (size (S ∖ {[1; 8; 10]}%nat))
      = 5 - Z.of_nat (size ({[1; 8; 10]} : gset node)%nat).
Proof.
  apply (fill_keeps_influencers slot_iter first_k three_hubs
           {[1; 8; 10]}%nat 5).
  - apply slot_iter_ok.
  - apply first_k_ok.
  - apply three_hubs_wf.
  - apply (bool_decide_unpack _). by vm_compute.
  - by vm_compute.
Defined.

(** X14: when the target exceeds the number of nodes and the influencer
    count does not exceed the target, too few nodes are left to draw from
    and the block raises the [ValueError] of [random.sample]; no Minority
    set is returned. *)
Theorem fill_beyond_population_raises set_iter sample G influencers target :
  set_iter_ok set_iter → NoDup (nodes G) →
  influencers ⊆ list_to_set (nodes G) →
  number_of_nodes G < target →
  Experiment.minority_set set_iter sample G influencers target
  = inl ValueError.
Proof.
  intros Hiter Hnd Hsub Htarget.
  pose proof (subseteq_size _ _ Hsub) as Hle.
  rewrite size_list_to_set in Hle by done.
  unfold number_of_nodes in Htarget.
  unfold Experiment.minority_set. rewrite decide_False by lia.
  rewrite decide_True by lia. unfold Experiment.random_sample.
  rewrite rest_length by done. by rewrite decide_False by lia.
Qed.

Lemma fill_beyond_population_raises_witness :
  Experiment.minority_set slot_iter first_k isolated4 ∅ 5 = inl ValueError.
Proof.
  apply (fill_beyond_population_raises slot_iter first_k isolated4 ∅ 5).
  - apply slot_iter_ok.
  - apply (bool_decide_unpack _). by vm_compute.
  - apply (bool_decide_unpack _). by vm_compute.
  - by vm_compute.
Defined.



(** ** [ba.py] on a graph without influencers *)





(** ** What the trial record and the printed line hold *)

Lemma exp_loop_prefix G rounds : ∀ opinions series0 series final,
  Experiment.simulation_loop G rounds opinions series0 = inr (series, final) →
  ∃ s, series = series0 ++ s.
Proof.
  induction rounds as [|rounds IH]; intros opinions series0 series final;
    cbn [Experiment.simulation_loop].
  - intros [= <- <-]. exists []. by rewrite app_nil_r.
  - intros (gi & _ & Hloop)%bind_inr.
    apply bind_inr in Hloop as (new_op & _ & Hloop). revert Hloop.
    case_decide.
    + intros [= <- <-]. by eexists.
    + intros (s & ->)%IH. rewrite <- app_assoc. by eexists.
Qed.

Lemma exp_loop_head G rounds opinions series final :
  Experiment.simulation_loop G (S rounds) opinions [] = inr (series, final) →
  ∃ gi, Experiment.static_majority_illusion G opinions = inr gi
        ∧ head series = Some (Z.of_nat (length gi.2)).
Proof.
  cbn [Experiment.simulation_loop].
  intros (gi & Hgi & Hloop)%bind_inr. exists gi. split; [done|].
  apply bind_inr in Hloop as (new_op & _ & Hloop). revert Hloop.
  case_decide.
  - by intros [= <- <-].
  - by intros (s & ->)%exp_loop_prefix.
Qed.

Lemma exp_simulation_head G opinions series final :
  Experiment.dynamic_simulation G opinions = inr (series, final) →
  ∃ gi, Experiment.static_majority_illusion G opinions = inr gi
        ∧ head series = Some (Z.of_nat (length gi.2)).
Proof. apply (exp_loop_head G 49). Qed.

Lemma foldl_max_facts (l : list Z) : ∀ x,
  x ≤ foldl Z.max x l
  ∧ Forall (λ y, y ≤ foldl Z.max x l) l
  ∧ foldl Z.max x l ∈ x :: l.
Proof.
  induction l as [|y l IH]; intros x; simpl.
  - split_and!; [lia | constructor | left].
  - destruct (IH (Z.max x y)) as (Hle & Hall & Hin). split_and!.
    + lia.
    + constructor; [lia | done].
    + apply elem_of_cons in Hin as [Hmax|Hin]; [|by do 2 right].
      rewrite Hmax. destruct (Z.max_spec x y) as [[_ ->]|[_ ->]];
        [right; left | left].
Qed.

Lemma py_max_facts (series : list Z) (m : Z) :
  py_max series = inr m → Forall (λ y, y ≤ m) series ∧ m ∈ series.
Proof.
  destruct series as [|x l]; [discriminate|]. intros [= <-].
  destruct (foldl_max_facts l x) as (Hle & Hall & Hin).
  split; [by constructor | done].
Qed.

(** X17: when the body of the batch loop returns a record for a graph and
    a fraction, the record holds the influencer count of the graph and the
    fraction; its [static] field is the first entry and its [final] field
    the last entry of the illusion series of the simulation started from the
    initial labeling, and both lie between 0 and the number of nodes. *)
Theorem batch_record_fields set_iter sample G_run N frac r :
  Experiment.batch_trial set_iter sample G_run N frac = inr r →
  ∃ infl_run opinions series final_op,
    Experiment.identify_influencers_by_threshold G_run = inr infl_run
    ∧ Experiment.opinions_init set_iter sample G_run N infl_run frac
      = inr opinions
    ∧ Experiment.dynamic_simulation G_run opinions = inr (series, final_op)
    ∧ Experiment.infl r = Z.of_nat (size infl_run)
    ∧ Experiment.frac r = frac
    ∧ head series = Some (Experiment.static r)
    ∧ last series = Some (Experiment.final r)
    ∧ 0 ≤ Experiment.static r ≤ number_of_nodes G_run
    ∧ 0 ≤ Experiment.final r ≤ number_of_nodes G_run.
Proof.
  unfold Experiment.batch_trial.
  intros (infl_run & Hid & Hr)%bind_inr.
  apply bind_inr in Hr as (opinions & Hop & Hr).
  apply bind_inr in Hr as (gi & Hgi & Hr).
  apply bind_inr in Hr as ([series final_op] & Hsim & Hr).
  apply bind_inr in Hr as (fin & Hfin & [= <-]).
  exists infl_run, opinions, series, final_op. cbn [fst] in Hfin.
  destruct (exp_simulation_head _ _ _ _ Hsim) as (gi' & Hgi' & Hhead).
  rewrite Hgi in Hgi'. injection Hgi' as <-.
  assert (Hlast : last series = Some fin).
  { revert Hfin. unfold getlast. destruct (last series); [|done].
    by intros [= ->]. }
  destruct (exp_series_bound G_run Experiment.max_rounds opinions [] series
              final_op Hsim) as [Hall _]; [constructor|].
  rewrite Forall_forall in Hall.
  cbn [Experiment.infl Experiment.frac Experiment.static Experiment.final].
  split_and!; try done.
  - by eapply static_count_bound.
  - by eapply static_count_bound.
  - by eapply Hall, last_Some_elem_of.
  - by eapply Hall, last_Some_elem_of.
Qed.

Lemma batch_record_fields_witness :
  ∃ infl_run opinions series final_op,
    Experiment.identify_influencers_by_threshold star_and_triangle
    = inr infl_run
    ∧ Experiment.opinions_init slot_iter first_k star_and_triangle 9
        infl_run (1 # 8) = inr opinions
    ∧ Experiment.dynamic_simulation star_and_triangle opinions
      = inr (series, final_op)
    ∧ 1 = Z.of_nat (size infl_run)
    ∧ (1 # 8)%Q = (1 # 8)%Q
    ∧ head series = Some 5
    ∧ last series = Some 8
    ∧ 0 ≤ 5 ≤ number_of_nodes star_and_triangle
    ∧ 0 ≤ 8 ≤ number_of_nodes star_and_triangle.
Proof.
  apply (batch_record_fields slot_iter first_k star_and_triangle 9 (1 # 8)
           {| Experiment.infl := 1; Experiment.frac := 1 # 8;
              Experiment.static := 5; Experiment.final := 8 |}).
  vm_compute. reflexivity.
Defined.

(** X18: when one pass of the single-run loop returns, the peak it prints
    is an entry of the illusion series, at least the static count and at
    least the final count, and at most the number of nodes. *)
Theorem single_run_peak set_iter sample G N frac global_maj static_count
    peak final_count :
  Experiment.single_run set_iter sample G N frac
  = inr (global_maj, static_count, peak, final_count) →
  0 ≤ static_count ≤ peak
  ∧ 0 ≤ final_count ≤ peak
  ∧ peak ≤ number_of_nodes G.
Proof.
  unfold Experiment.single_run.
  intros (influencers & Hid & Hr)%bind_inr.
  apply bind_inr in Hr as (opinions & Hop & Hr).
  apply bind_inr in Hr as (gi & Hgi & Hr).
  apply bind_inr in Hr as ([series final_op] & Hsim & Hr).
  apply bind_inr in Hr as (m & Hmax & Hr).
  apply bind_inr in Hr as (fin & Hfin & [= <- <- <- <-]).
  cbn [fst] in Hmax, Hfin.
  destruct (exp_simulation_head _ _ _ _ Hsim) as (gi' & Hgi' & Hhead).
  rewrite Hgi in Hgi'. injection Hgi' as <-.
  destruct (py_max_facts _ _ Hmax) as [Hle Hin].
  destruct (exp_series_bound G Experiment.max_rounds opinions [] series
              final_op Hsim) as [Hall _]; [constructor|].
  rewrite Forall_forall in Hall, Hle.
  assert (Hlast : last series = Some fin).
  { revert Hfin. unfold getlast. destruct (last series); [|done].
    by intros [= ->]. }
  assert (Hst : Z.of_nat (length gi.2) ∈ series).
  { apply head_Some_elem_of. by rewrite Hhead. }
  assert (Hf : fin ∈ series) by (apply last_Some_elem_of; by rewrite Hlast).
  pose proof (Hle _ Hst). pose proof (Hle _ Hf).
  pose proof (Hall _ Hin). pose proof (Hall _ Hf). lia.
Qed.

Lemma single_run_peak_witness :
  0 ≤ 5 ≤ 8 ∧ 0 ≤ 8 ≤ 8 ∧ 8 ≤ number_of_nodes star_and_triangle.
Proof.
  apply (single_run_peak slot_iter first_k star_and_triangle 9 (1 # 8)
           Blue 5 8 8).
  vm_compute. reflexivity.
Defined.

(** ** The node lists of the detailed plot *)

(** X19: for an influencer set and an extra set within a graph without
    repeated nodes, the three node lists drawn by
    [plot_static_illusion_detailed] (influencers, extra minority, majority)
    together hold every node of the graph exactly once. *)
Theorem plot_nodelists_partition set_iter G influencers extra :
  set_iter_ok set_iter → NoDup (nodes G) →
  influencers ⊆ list_to_set (nodes G) → extra ⊆ list_to_set (nodes G) →
  ∃ infl extra_only majority,
    Experiment.plot_static_illusion_detailed_nodelists set_iter G
      influencers extra = (infl, extra_only, majority)
    ∧ infl ++ extra_only ++ majority ≡ₚ nodes G.
Proof.
  intros Hiter Hnd Hinfl Hextra. eexists _, _, _. split; [done|].
  assert (Hin : ∀ (s : gset node) x, x ∈ set_iter s ↔ x ∈ s).
  { intros s' x. by rewrite (Hiter s'), elem_of_elements. }
  assert (Hnds : ∀ s : gset node, NoDup (set_iter s)).
  { intros s'. rewrite (Hiter s'). apply NoDup_elements. }
  apply NoDup_Permutation; [|done|].
  - apply NoDup_app. split_and!; [done | |].
    + intros x Hx%Hin [Hy|Hy]%elem_of_app;
        apply list_elem_of_filter in Hy; tauto.
    + apply NoDup_app. split_and!; [by apply NoDup_filter | | by apply NoDup_filter].
      intros x [_ Hx%Hin]%list_elem_of_filter Hy%list_elem_of_filter. tauto.
  - intros x. rewrite !elem_of_app, !list_elem_of_filter, !Hin. split.
    + intros [Hx|[[_ Hx]|[_ Hx]]]; [|  |done].
      * apply Hinfl in Hx. by apply elem_of_list_to_set in Hx.
      * apply Hextra in Hx. by apply elem_of_list_to_set in Hx.
    + intros Hx. destruct (decide (x ∈ influencers)); [by left|].
      destruct (decide (x ∈ extra)); [right; by left | by do 2 right].
Qed.

Lemma plot_nodelists_partition_witness :
  ∃ infl extra_only majority,
    Experiment.plot_static_illusion_detailed_nodelists slot_iter three_hubs
      {[1; 8; 10]}%nat {[2; 3]}%nat = (infl, extra_only, majority)
    ∧ infl ++ extra_only ++ majority ≡ₚ nodes three_hubs.
Proof.
  apply (plot_nodelists_partition slot_iter three_hubs
           {[1; 8; 10]}%nat {[2; 3]}%nat).
  - apply slot_iter_ok.
  - apply (bool_decide_unpack _). by vm_compute.
  - apply (bool_decide_unpack _). by vm_compute.
  - apply (bool_decide_unpack _). by vm_compute.
Defined.

(** ** The batch loops *)

Section Batch.
Context (set_iter : gset node → list node)
        (sample : list node → nat → list node) (N : Z).

Lemma fracs_loop_records G_run infl_run fracs : ∀ records result,
  Experiment.fracs_loop set_iter sample G_run N infl_run fracs records
  = inr result →
  ∃ new, result = records ++ new
         ∧ Experiment.frac <$> new = fracs
         ∧ Experiment.infl <$> new
           = replicate (length fracs) (Z.of_nat (size infl_run)).
Proof.
  induction fracs as [|frac fracs IH]; intros records result;
    cbn [Experiment.fracs_loop].
  - intros [= <-]. exists []. by rewrite app_nil_r.
  - intros (r & Hr & Hloop)%bind_inr.
    apply IH in Hloop as (new & -> & Hfrac & Hinfl).
    exists (r :: new). rewrite <- app_assoc. split; [done|].
    revert Hr. unfold Experiment.trial_body.
    intros (op & _ & Hr)%bind_inr.
    apply bind_inr in Hr as (gi & _ & Hr).
    apply bind_inr in Hr as (sim & _ & Hr).
    apply bind_inr in Hr as (fin & _ & [= <-]).
    rewrite !fmap_cons, Hfrac, Hinfl. done.
Qed.

Lemma runs_loop_records graphs fracs : ∀ records result,
  Experiment.runs_loop set_iter sample graphs N fracs records = inr result →
  ∃ new influencer_sets,
    result = records ++ new
    ∧ Forall2 (λ G I, Experiment.identify_influencers_by_threshold G = inr I)
        graphs influencer_sets
    ∧ Experiment.frac <$> new = mjoin (replicate (length graphs) fracs)
    ∧ Experiment.infl <$> new
      = mjoin ((λ I : gset node,
                  replicate (length fracs) (Z.of_nat (size I)))
               <$> influencer_sets).
Proof.
  induction graphs as [|G graphs IH]; intros records result;
    cbn [Experiment.runs_loop].
  - intros [= <-]. exists [], []. rewrite app_nil_r.
    split_and!; [done | constructor | done..].
  - intros (I & HI & Hloop)%bind_inr.
    apply bind_inr in Hloop as (records' & Hfracs & Hloop).
    apply fracs_loop_records in Hfracs as (new1 & -> & Hf1 & Hi1).
    apply IH in Hloop as (new2 & Is & -> & HIs & Hf2 & Hi2).
    exists (new1 ++ new2), (I :: Is). rewrite <- app_assoc.
    split_and!; [done | by constructor | |].
    + rewrite fmap_app, Hf1, Hf2. done.
    + rewrite fmap_app, Hi1, Hi2. done.
Qed.

End Batch.

(** X20: when the batch loops return, over the graphs generated in the runs
    and a list of fractions, the records hold one entry per graph and
    fraction, graph by graph in the order of the fractions, each with the
    influencer count of its graph. *)
Theorem batch_records_layout set_iter sample graphs N fracs records :
  Experiment.runs_loop set_iter sample graphs N fracs [] = inr records →
  length records = (length graphs * length fracs)%nat
  ∧ Experiment.frac <$> records = mjoin (replicate (length graphs) fracs)
  ∧ ∃ influencer_sets,
      Forall2 (λ G I, Experiment.identify_influencers_by_threshold G = inr I)
        graphs influencer_sets
      ∧ Experiment.infl <$> records
        = mjoin ((λ I : gset node,
                    replicate (length fracs) (Z.of_nat (size I)))
                 <$> influencer_sets).
Proof.
  intros (new & Is & -> & HIs & Hfrac & Hinfl)%runs_loop_records.
  rewrite app_nil_l. split_and!; [|done|by exists Is].
  rewrite <- (length_fmap Experiment.frac), Hfrac.
  clear. induction graphs as [|G graphs IH]; [done|].
  simpl. rewrite length_app, IH. done.
Qed.

Lemma batch_records_layout_witness :
  length [ {| Experiment.infl := 1; Experiment.frac := 1 # 8;
              Experiment.static := 5; Experiment.final := 8 |};
           {| Experiment.infl := 1; Experiment.frac := 1 # 8;
              Experiment.static := 5; Experiment.final := 8 |} ]
  = (length [star_and_triangle; star_and_triangle] * length [(1 # 8)%Q])%nat
  ∧ Experiment.frac <$>
      [ {| Experiment.infl := 1; Experiment.frac := 1 # 8;
           Experiment.static := 5; Experiment.final := 8 |};
        {| Experiment.infl := 1; Experiment.frac := 1 # 8;
           Experiment.static := 5; Experiment.final := 8 |} ]
    = mjoin (replicate (length [star_and_triangle; star_and_triangle])
               [(1 # 8)%Q])
  ∧ ∃ influencer_sets,
      Forall2 (λ G I, Experiment.identify_influencers_by_threshold G = inr I)
        [star_and_triangle; star_and_triangle] influencer_sets
      ∧ Experiment.infl <$>
          [ {| Experiment.infl := 1; Experiment.frac := 1 # 8;
               Experiment.static := 5; Experiment.final := 8 |};
            {| Experiment.infl := 1; Experiment.frac := 1 # 8;
               Experiment.static := 5; Experiment.final := 8 |} ]
        = mjoin ((λ I : gset node,
                    replicate (length [(1 # 8)%Q]) (Z.of_nat (size I)))
                 <$> influencer_sets).
Proof.
  apply (batch_records_layout slot_iter first_k
           [star_and_triangle; star_and_triangle] 9 [(1 # 8)%Q]).
  vm_compute. reflexivity.
Defined.

(** X21: the batch loops have no failure isolation: if one of the graphs
    has no nodes, the loops return no records at all but raise. *)
Theorem batch_aborts_on_empty_graph set_iter sample graphs N fracs records G :
  G ∈ graphs → number_of_nodes G = 0 →
  ∃ e, Experiment.runs_loop set_iter sample graphs N fracs records = inl e.
Proof.
  intros HG Hzero. revert records.
  induction graphs as [|G' graphs IH]; intros records;
    [by apply elem_of_nil in HG|].
  cbn [Experiment.runs_loop].
  destruct (Experiment.identify_influencers_by_threshold G') as [e|I] eqn:HI;
    [by exists e|].
  cbn [bind].
  destruct (Experiment.fracs_loop set_iter sample G' N I fracs records)
    as [e|records']; [by exists e|].
  cbn [bind]. apply elem_of_cons in HG as [->|HG]; [|by apply IH].
  exfalso. revert HI. unfold Experiment.identify_influencers_by_threshold.
  by rewrite decide_True.
Qed.

Lemma batch_aborts_on_empty_graph_witness :
  ∃ e, Experiment.runs_loop slot_iter first_k
         [star_and_triangle; empty_graph] 9 [(1 # 8)%Q] [] = inl e.
Proof.
  apply (batch_aborts_on_empty_graph slot_iter first_k
           [star_and_triangle; empty_graph] 9 [(1 # 8)%Q] [] empty_graph).
  - right. left.
  - reflexivity.
Defined.

(** ** The static plot of [ba.py] *)

(** X22: in [ba.py], on a graph whose nodes are 0, ..., n-1 in this order
    (as the generator numbers them) and with a total labeling,
    [plot_static_illusion] hands over first the nodes outside the illusion
    list and then those in it, each node with the color of its own label,
    and the number of [Red] labels for the title. *)
Theorem plot_static_illusion_draws G opinions illusion_nodes n :
  nodes G = seq 0 n → total_on G opinions →
  ∃ circle_colors square_colors,
    BA.plot_static_illusion G opinions illusion_nodes
    = inr ([(filter (λ v, v ∉ illusion_nodes) (nodes G), circle_colors);
            (filter (λ v, v ∈ illusion_nodes) (nodes G), square_colors)],
           red_count opinions)
    ∧ Forall2 (λ v c, color_of <$> opinions !! v = Some c)
        (filter (λ v, v ∉ illusion_nodes) (nodes G)) circle_colors
    ∧ Forall2 (λ v c, color_of <$> opinions !! v = Some c)
        (filter (λ v, v ∈ illusion_nodes) (nodes G)) square_colors.
Proof. apply ba_plot_static_illusion_facts. Qed.

Lemma plot_static_illusion_draws_witness :
  ∃ circle_colors square_colors,
    BA.plot_static_illusion pair_graph pair_opinions [1%nat]
    = inr ([(filter (λ v, v ∉ [1%nat]) (nodes pair_graph), circle_colors);
            (filter (λ v, v ∈ [1%nat]) (nodes pair_graph), square_colors)],
           red_count pair_opinions)
    ∧ Forall2 (λ v c, color_of <$> pair_opinions !! v = Some c)
        (filter (λ v, v ∉ [1%nat]) (nodes pair_graph)) circle_colors
    ∧ Forall2 (λ v c, color_of <$> pair_opinions !! v = Some c)
        (filter (λ v, v ∈ [1%nat]) (nodes pair_graph)) square_colors.
Proof.
  apply (plot_static_illusion_draws pair_graph pair_opinions [1%nat] 2).
  - reflexivity.
  - apply pair_opinions_total.
Defined.

(** X23: [plot_static_illusion] indexes its color list by node identifier:
    with a total labeling, a node of the graph whose identifier is the
    number of nodes or more makes it raise [IndexError]. *)
Theorem plot_static_illusion_index_error G opinions illusion_nodes v :
  total_on G opinions →
  v ∈ nodes G → (length (nodes G) ≤ v)%nat →
  BA.plot_static_illusion G opinions illusion_nodes = inl IndexError.
Proof.
  intros Htot Hv Hge. unfold BA.plot_static_illusion.
  destruct (labels_of_total opinions (nodes G)) as (labels & -> & Hall);
    [done|]. cbn [bind].
  assert (Hlen : length (color_of <$> labels) = length (nodes G)).
  { apply Forall2_length in Hall. by rewrite length_fmap. }
  destruct (colors_at_cases (color_of <$> labels)
              (filter (λ v, bool_decide (v ∈ illusion_nodes) = false) (nodes G)))
    as [(cc & -> & Hcc)|(-> & _)]; [|done]. cbn [bind].
  destruct (colors_at_cases (color_of <$> labels)
              (filter (λ v, bool_decide (v ∈ illusion_nodes) = true) (nodes G)))
    as [(sc & -> & Hsc)|(-> & _)]; [|done]. exfalso.
  assert (Hrange : ∀ vs cs,
            Forall2 (λ v c, (color_of <$> labels) !! v = Some c) vs cs →
            v ∈ vs → False).
  { intros vs cs Hf2 Hin. apply list_elem_of_lookup in Hin as [i Hi].
    destruct (Forall2_lookup_l _ _ _ i v Hf2 Hi) as (c & _ & Hc).
    apply lookup_lt_Some in Hc. lia. }
  destruct (bool_decide (v ∈ illusion_nodes)) eqn:Hb.
  - eapply Hrange; [exact Hsc|]. by apply list_elem_of_filter.
  - eapply Hrange; [exact Hcc|]. by apply list_elem_of_filter.
Qed.

Lemma plot_static_illusion_index_error_witness :
  BA.plot_static_illusion {| nodes := [5%nat]; neighbors := λ _, [] |}
    {[5%nat := Blue]} [] = inl IndexError.
Proof.
  apply (plot_static_illusion_index_error
           {| nodes := [5%nat]; neighbors := λ _, [] |}
           {[5%nat := Blue]} [] 5%nat).
  - intros v Hv. simpl in Hv. members Hv. by eexists.
  - left.
  - simpl. lia.
Defined.

(** ** Consensus under the majority vote *)

Lemma consensus_values G (opinions : gmap node Label) l :
  (∀ v, v ∈ nodes G → opinions !! v = Some l) →
  (∀ k, k ∉ nodes G → opinions !! k = None) →
  Forall (λ x, x = l) (values opinions).
Proof.
  intros Hin Hout. apply Forall_forall. intros x Hx.
  apply list_elem_of_fmap in Hx as ([k y] & -> & Hky). simpl.
  apply elem_of_map_to_list in Hky.
  destruct (decide (k ∈ nodes G)) as [Hk|Hk].
  - rewrite (Hin k Hk) in Hky. by simplify_eq.
  - rewrite (Hout k Hk) in Hky. discriminate.
Qed.

Lemma consensus_global_majority G (opinions : gmap node Label) l v :
  (∀ v, v ∈ nodes G → opinions !! v = Some l) →
  (∀ k, k ∉ nodes G → opinions !! k = None) →
  v ∈ nodes G → global_majority opinions = l.
Proof.
  intros Hin Hout Hv. pose proof (consensus_values G opinions l Hin Hout) as Hall.
  assert (Hpos : (0 < size opinions)%nat).
  { destruct (decide (size opinions = 0%nat)) as [Hz|]; [|lia].
    apply map_size_empty_inv in Hz. specialize (Hin v Hv).
    rewrite Hz, lookup_empty in Hin. discriminate. }
  pose proof (red_blue_split (values opinions)) as Hsplit.
  rewrite length_values in Hsplit.
  rewrite Forall_forall in Hall.
  unfold global_majority, red_count, blue_count. destruct l.
  - assert (Hnone : filter (λ x, x = Blue) (values opinions) = []).
    { apply filter_none. intros x Hx. by rewrite (Hall x Hx). }
    rewrite Hnone in Hsplit |- *. simpl in *.
    rewrite decide_True by lia. done.
  - assert (Hnone : filter (λ x, x = Red) (values opinions) = []).
    { apply filter_none. intros x Hx. by rewrite (Hall x Hx). }
    rewrite Hnone in Hsplit |- *. simpl in *.
    rewrite decide_False by lia. done.
Qed.

Lemma consensus_local_majority G (opinions : gmap node Label) l v :
  graph_wf G → (∀ v, v ∈ nodes G → opinions !! v = Some l) →
  v ∈ nodes G →
  local_majority G opinions v = None ∨ local_majority G opinions v = Some l.
Proof.
  intros Hwf Hin Hv.
  assert (Hnbr : ∀ u, u ∈ neighbors G v → opinions !! u = Some l).
  { intros u Hu. apply Hin. by apply (proj2 Hwf v). }
  unfold local_majority, nbr_red, nbr_blue. destruct l.
  - rewrite (filter_none (λ u, opinions !! u = Some Blue)).
    + simpl. repeat case_decide; auto; lia.
    + intros u Hu. by rewrite (Hnbr u Hu).
  - rewrite (filter_none (λ u, opinions !! u = Some Red)).
    + simpl. repeat case_decide; auto; lia.
    + intros u Hu. by rewrite (Hnbr u Hu).
Qed.

(** X24: under the majority vote of [experiment.py], a labeling of a
    well-formed graph that gives every node the same label, and has no other
    key, is left as it is by a round; the simulation started from it stops
    in its first round with the series [0]: no node is under illusion. *)
Theorem consensus_is_absorbing G opinions l rounds :
  graph_wf G →
  (∀ v, v ∈ nodes G → opinions !! v = Some l) →
  (∀ k, k ∉ nodes G → opinions !! k = None) →
  Experiment.update G opinions = inr opinions
  ∧ Experiment.dynamic_simulation_with (S rounds) G opinions
    = inr ([0], opinions).
Proof.
  intros Hwf Hin Hout.
  assert (Htot : total_on G opinions) by (intros v Hv; rewrite Hin; eauto).
  assert (Hfix : Experiment.update G opinions = inr opinions).
  { destruct (exp_update_loop_exact G opinions (nodes G) ∅)
      as (new_op & Hupd & Hnew); [done | by apply neighbors_labeled |].
    unfold Experiment.update. rewrite Hupd. f_equal. apply map_eq. intros k.
    rewrite Hnew. case_decide as Hk.
    - unfold next_label.
      destruct (consensus_local_majority G opinions l k Hwf Hin Hk) as [->| ->];
        [done | by rewrite Hin].
    - by rewrite lookup_empty, Hout. }
  split; [done|].
  unfold Experiment.dynamic_simulation_with. cbn [Experiment.simulation_loop].
  rewrite static_total by done. cbn [bind ret snd].
  rewrite Hfix. cbn [bind]. rewrite decide_True by done.
  rewrite filter_none; [done|].
  intros v Hv (_ & Hne & Hloc).
  rewrite (consensus_global_majority G opinions l v) in Hloc by done.
  destruct (consensus_local_majority G opinions l v Hwf Hin Hv) as [Hnone|Hsome];
    [|done].
  revert Hnone. unfold local_majority. repeat case_decide; done || lia.
Qed.

Lemma consensus_is_absorbing_witness :
  Experiment.update pair_graph {[0%nat := Red; 1%nat := Red]}
  = inr {[0%nat := Red; 1%nat := Red]}
  ∧ Experiment.dynamic_simulation_with 50 pair_graph
      {[0%nat := Red; 1%nat := Red]}
    = inr ([0], {[0%nat := Red; 1%nat := Red]}).
Proof.
  apply (consensus_is_absorbing pair_graph {[0%nat := Red; 1%nat := Red]}
           Red 49).
  - apply pair_graph_wf.
  - intros v Hv. simpl in Hv. members Hv; reflexivity.
  - intros k Hk. destruct k as [|[|k]].
    + exfalso. apply Hk. left.
    + exfalso. apply Hk. right. left.
    + by rewrite lookup_insert_ne, lookup_singleton_ne by lia.
Defined.
